(** * Sedona bike rentals: the home screen (src/app/index.tsx)

    A shallow embedding of the single source file of the application: the
    route catalogue, the Haversine distance, the route fetcher with its
    straight-line fallback, the location-tracking effect and the rendering
    decision of [HomeScreen].

    A JavaScript [number] is idealised as a real number: [Math.sin],
    [Math.cos], [Math.sqrt] and [Math.PI] are the functions of the
    standard library of reals, and [Math.atan2] is defined below by the
    case table of ECMA-262.  Rounding, NaN and the infinities are outside
    that reading; where a statement depends on them, the distance is read
    on binary64 numbers in the module [Binary64]. *)

From Stdlib Require Import Reals Lra Lia List String Ascii Bool Arith DecimalString.
From Stdlib Require Floats.
Import ListNotations.

Local Open Scope R_scope.

(** ** Data model (lines 8-45) *)

Record LocationState : Type := mkLocation {
  latitude : R;
  longitude : R
}.

Record Route : Type := mkRoute {
  id : nat;
  name : string;
  endLocation : LocationState
}.

Definition ROUTES : list Route :=
  [ mkRoute 1 "Cathedral Rock Trail" (mkLocation (348222 / 10000) (- (1117901 / 10000)));
    mkRoute 2 "Bell Rock Pathway" (mkLocation (348032 / 10000) (- (1117761 / 10000)));
    mkRoute 3 "Devil's Bridge Trail" (mkLocation (348837 / 10000) (- (1118158 / 10000)));
    mkRoute 4 "Soldier Pass Trail" (mkLocation (348743 / 10000) (- (1117967 / 10000))) ].

(** ** Geo math (lines 129-140) *)

Module Math.

(** [Math.atan2(y, x)]: the angle of the point [(x, y)], in [(-PI, PI]];
    [atan2(0, 0)] is [0] as for [+0] arguments. *)
Definition atan2 (y x : R) : R :=
  match total_order_T x 0 with
  | inleft (left _) =>            (* x < 0 *)
      if Rle_dec 0 y then atan (y / x) + PI else atan (y / x) - PI
  | inleft (right _) =>           (* x = 0 *)
      match total_order_T y 0 with
      | inleft (left _) => - (PI / 2)
      | inleft (right _) => 0
      | inright _ => PI / 2
      end
  | inright _ => atan (y / x)     (* 0 < x *)
  end.

End Math.

(** The quantity [a] of the Haversine formula, as computed on lines 132-137. *)
Definition haversine_a (point1 point2 : LocationState) : R :=
  let dLat := (latitude point2 - latitude point1) * PI / 180 in
  let dLon := (longitude point2 - longitude point1) * PI / 180 in
  sin (dLat / 2) * sin (dLat / 2) +
  cos (latitude point1 * PI / 180) * cos (latitude point2 * PI / 180) *
  sin (dLon / 2) * sin (dLon / 2).

Definition calculateDistance (point1 point2 : LocationState) : R :=
  let R := 6371 in
  let a := haversine_a point1 point2 in
  let c := 2 * Math.atan2 (sqrt a) (sqrt (1 - a)) in
  R * c.

(** ** JavaScript values

    The body of the routing response is whatever [response.json()] parses,
    so the fetcher is modelled on untyped values.  [VUndefined] is the
    result of reading an absent property. *)

Local Open Scope string_scope.
Local Open Scope R_scope.

#[warnings="-register-all"] Inductive value : Type :=
| VUndefined
| VNull
| VBool (b : bool)
| VNum (x : R)
| VStr (s : string)
| VArr (elems : list value)
| VObj (props : list (string * value)).

Inductive exn : Type :=
| TypeError (message : string)
| SyntaxError (message : string)
| NetworkError (message : string).

Inductive result (A : Type) : Type :=
| Ok (a : A)
| Throw (e : exn).
Arguments Ok {A} a.
Arguments Throw {A} e.

(** [ToBoolean]: [undefined], [null], [false], [0] and the empty string are
    falsy; every array and object is truthy. *)
Definition truthy (v : value) : bool :=
  match v with
  | VUndefined | VNull => false
  | VBool b => b
  | VNum x => if Req_dec_T x 0 then false else true
  | VStr s => negb (String.eqb s "")
  | VArr _ | VObj _ => true
  end.

Fixpoint lookup (k : string) (props : list (string * value)) : value :=
  match props with
  | [] => VUndefined
  | (k', v) :: rest => if String.eqb k k' then v else lookup k rest
  end.

(** The property read [v.k] for a name [k] that no array, string, number or
    boolean carries (the source reads [routes], [geometry] and
    [coordinates]): it throws on [null] and [undefined] and finds the name
    only in an object. *)
Definition get_field (v : value) (k : string) : result value :=
  match v with
  | VUndefined | VNull =>
      Throw (TypeError ("Cannot read properties of undefined (reading '" ++ k ++ "')"))
  | VObj props => Ok (lookup k props)
  | _ => Ok VUndefined
  end.

Definition index_name (i : nat) : string :=
  DecimalString.NilEmpty.string_of_uint (Nat.to_uint i).

(** The indexed read [v[i]]. *)
Definition get_index (v : value) (i : nat) : result value :=
  match v with
  | VUndefined | VNull =>
      Throw (TypeError ("Cannot read properties of undefined (reading '" ++ index_name i ++ "')"))
  | VArr elems => Ok (nth i elems VUndefined)
  | VStr s =>
      Ok (match String.get i s with
          | Some c => VStr (String c EmptyString)
          | None => VUndefined
          end)
  | VObj props => Ok (lookup (index_name i) props)
  | _ => Ok VUndefined
  end.

(** ** Component state and the monad of the handlers

    The three [useState] cells of [HomeScreen], the console, and the
    instances of the tracking effect (defined with the session below). *)

Module RouteCoordinates.
Record t : Type := make {
  latitude : value;
  longitude : value
}.
End RouteCoordinates.

(** A [LocationState] stored where a [RouteCoordinates] is expected. *)
Definition asRouteCoordinates (p : LocationState) : RouteCoordinates.t :=
  RouteCoordinates.make (VNum (latitude p)) (VNum (longitude p)).

Inductive stage : Type :=
| AwaitingPermission      (* requestForegroundPermissionsAsync pending *)
| PermissionRefused       (* the async body returned on line 87 *)
| AwaitingSubscription    (* watchPositionAsync called, its promise pending *)
| Subscribed.             (* locationSubscription assigned *)

Record Effect : Type := mkEffect {
  closureRoute : Route;       (* the selectedRoute captured by the closure *)
  effectStage : stage;
  watching : bool             (* the location service delivers updates *)
}.

Inductive console_entry : Type :=
| ConsoleLog (message : string)
| ConsoleError (message : string) (error : exn).

Record World : Type := mkWorld {
  location : option LocationState;
  selectedRoute : option Route;
  routeCoordinates : list RouteCoordinates.t;
  console : list console_entry;
  effects : list Effect
}.

Definition initialWorld : World :=
  mkWorld None None [] [] [].

Definition M (A : Type) : Type := World -> result A * World.

Definition ret {A} (a : A) : M A := fun w => (Ok a, w).

Definition bind {A B} (m : M A) (k : A -> M B) : M B :=
  fun w =>
    match m w with
    | (Ok a, w') => k a w'
    | (Throw e, w') => (Throw e, w')
    end.

Definition lift {A} (r : result A) : M A := fun w => (r, w).

Definition try_catch {A} (body : M A) (handler : exn -> M A) : M A :=
  fun w =>
    match body w with
    | (Ok a, w') => (Ok a, w')
    | (Throw e, w') => handler e w'
    end.

Definition exec {A} (m : M A) (w : World) : World := snd (m w).

Declare Scope js_scope.
Delimit Scope js_scope with js.
Notation "x <- m ;; k" := (bind m (fun x => k))
  (at level 61, m at next level, right associativity) : js_scope.
Notation "m ;; k" := (bind m (fun _ => k))
  (at level 61, right associativity) : js_scope.
Local Open Scope js_scope.

Definition setLocation (p : LocationState) : M unit :=
  fun w => (Ok tt, mkWorld (Some p) (selectedRoute w) (routeCoordinates w)
                           (console w) (effects w)).

Definition setSelectedRoute (r : option Route) : M unit :=
  fun w => (Ok tt, mkWorld (location w) r (routeCoordinates w)
                           (console w) (effects w)).

Definition setRouteCoordinates (cs : list RouteCoordinates.t) : M unit :=
  fun w => (Ok tt, mkWorld (location w) (selectedRoute w) cs
                           (console w) (effects w)).

Definition console_write (entry : console_entry) : M unit :=
  fun w => (Ok tt, mkWorld (location w) (selectedRoute w) (routeCoordinates w)
                           (console w ++ [entry]) (effects w)).

(** [Array.prototype.map] with a callback that may throw: the elements are
    visited in order and the first exception ends the call. *)
Fixpoint map_elems {A} (f : value -> result A) (elems : list value) : result (list A) :=
  match elems with
  | [] => Ok []
  | v :: rest =>
      match f v with
      | Throw e => Throw e
      | Ok a =>
          match map_elems f rest with
          | Throw e => Throw e
          | Ok l => Ok (a :: l)
          end
      end
  end.

(** The method call [v.map(f)]: only an array has a callable [map]. *)
Definition array_map {A} (v : value) (f : value -> result A) : result (list A) :=
  match v with
  | VArr elems => map_elems f elems
  | VUndefined | VNull =>
      Throw (TypeError "Cannot read properties of undefined (reading 'map')")
  | _ => Throw (TypeError "map is not a function")
  end.

(** ** The routing service

    What one call of [fetch] followed by [response.json()] can do: the
    request promise rejects, or it resolves to a response (of any status)
    whose body either fails to parse or parses to a value. *)

Inductive json_outcome : Type :=
| JsonRejects (e : exn)
| JsonResolves (data : value).

Record Response : Type := mkResponse {
  status : nat;
  json : json_outcome
}.

Inductive fetch_outcome : Type :=
| FetchRejects (e : exn)
| FetchResolves (response : Response).

(** The four numbers interpolated into the request URL of line 56, in the
    order in which they appear. *)
Record RouteUrl : Type := mkRouteUrl {
  startLon : R; startLat : R; endLon : R; endLat : R
}.

Definition routeUrl (start end_ : LocationState) : RouteUrl :=
  mkRouteUrl (longitude start) (latitude start) (longitude end_) (latitude end_).

Definition Network : Type := RouteUrl -> fetch_outcome.

Definition await_fetch (o : fetch_outcome) : M Response :=
  match o with
  | FetchRejects e => lift (Throw e)
  | FetchResolves response => ret response
  end.

Definition await_json (response : Response) : M value :=
  match json response with
  | JsonRejects e => lift (Throw e)
  | JsonResolves data => ret data
  end.

(** The callback of [coordinates.map] (lines 62-65). *)
Definition toRouteCoordinates (coord : value) : result RouteCoordinates.t :=
  match get_index coord 1 with
  | Throw e => Throw e
  | Ok lat =>
      match get_index coord 0 with
      | Throw e => Throw e
      | Ok lon => Ok (RouteCoordinates.make lat lon)
      end
  end.

(** ** Route fetcher (lines 53-77) *)

Definition straightLine (start end_ : LocationState) : list RouteCoordinates.t :=
  [asRouteCoordinates start; asRouteCoordinates end_].

Definition fetchRouteCoordinates_try (fetch : Network) (start end_ : LocationState)
  : M unit :=
  response <- await_fetch (fetch (routeUrl start end_)) ;;
  data <- await_json response ;;
  routes <- lift (get_field data "routes") ;;
  guard <- (if truthy routes then lift (get_index routes 0) else ret routes) ;;
  if truthy guard then
    routes' <- lift (get_field data "routes") ;;
    route0 <- lift (get_index routes' 0) ;;
    geometry <- lift (get_field route0 "geometry") ;;
    coordinates <- lift (get_field geometry "coordinates") ;;
    routeCoords <- lift (array_map coordinates toRouteCoordinates) ;;
    setRouteCoordinates routeCoords
  else ret tt.

Definition fetchRouteCoordinates (fetch : Network) (start end_ : LocationState)
  : M unit :=
  try_catch
    (fetchRouteCoordinates_try fetch start end_)
    (fun error =>
       console_write (ConsoleError "Error fetching route:" error) ;;
       (* Fallback to straight line if route fetch fails *)
       setRouteCoordinates (straightLine start end_)).

(** ** Tracking effect (lines 79-127) *)

Record LocationObject : Type := mkLocationObject {
  coords : LocationState;
  timestamp : R
}.

(** The callback handed to [watchPositionAsync] (lines 95-117), for the
    route captured by the effect. *)
Definition watchCallback (fetch : Network) (selectedRoute : Route)
    (newLocation : LocationObject) : M unit :=
  let currentPosition :=
    mkLocation (latitude (coords newLocation)) (longitude (coords newLocation)) in
  setLocation currentPosition ;;
  (* Fetch new route whenever location updates *)
  fetchRouteCoordinates fetch currentPosition (endLocation selectedRoute) ;;
  let distance := calculateDistance currentPosition (endLocation selectedRoute) in
  if Rlt_dec distance (5 / 100) then setRouteCoordinates [] else ret tt.

Fixpoint replace_nth {A} (i : nat) (a : A) (l : list A) : list A :=
  match l, i with
  | [], _ => []
  | _ :: rest, O => a :: rest
  | x :: rest, S j => x :: replace_nth j a rest
  end.

Definition setEffect (i : nat) (e : Effect) : M unit :=
  fun w => (Ok tt, mkWorld (location w) (selectedRoute w) (routeCoordinates w)
                           (console w) (replace_nth i e (effects w))).

(** The effect runs for a non-null [selectedRoute] (lines 80-84): a new
    instance whose async body has called
    [requestForegroundPermissionsAsync] and is suspended on it. *)
Definition runEffect (route : Route) : M unit :=
  fun w => (Ok tt, mkWorld (location w) (selectedRoute w) (routeCoordinates w)
                           (console w)
                           (effects w ++ [mkEffect route AwaitingPermission false])).

(** The async body resumed with the permission status (lines 84-90): it
    returns on a status other than ['granted'], and otherwise calls
    [watchPositionAsync], which starts the deliveries. *)
Definition permissionContinuation (i : nat) (e : Effect) (status : string) : M unit :=
  if negb (String.eqb status "granted") then
    console_write (ConsoleLog "Permission to access location was denied") ;;
    setEffect i (mkEffect (closureRoute e) PermissionRefused (watching e))
  else
    setEffect i (mkEffect (closureRoute e) AwaitingSubscription true).

(** The promise of [watchPositionAsync] resolves and [locationSubscription]
    is assigned (line 90). *)
Definition subscriptionContinuation (i : nat) (e : Effect) : M unit :=
  setEffect i (mkEffect (closureRoute e) Subscribed (watching e)).

(** The cleanup returned by the effect (lines 121-125): it removes the
    subscription only if [locationSubscription] has been assigned. *)
Definition cleanup (i : nat) (e : Effect) : M unit :=
  match effectStage e with
  | Subscribed => setEffect i (mkEffect (closureRoute e) Subscribed false)
  | _ => ret tt
  end.

(** ** Screen presentation (lines 153-228) *)

Inductive View : Type :=
| RouteList (buttons : list Route)
| MapScreen (userMarker : option LocationState) (destination : Route)
            (polyline : option (list RouteCoordinates.t)).

Definition render (w : World) : View :=
  match selectedRoute w with
  | None => RouteList ROUTES
  | Some route =>
      MapScreen (location w) route
        (if (0 <? List.length (routeCoordinates w))%nat
         then Some (routeCoordinates w) else None)
  end.

(** ** The event loop

    The events that reach the component.  A button can be pressed only
    while it is rendered, a continuation runs only for an effect instance
    suspended at the matching await, and a position update is delivered
    only for an instance whose subscription is live.  Each update runs its
    callback to completion with the behaviour of the network for that
    call.  The two promises of the location service are taken to resolve:
    a rejection of either, which the async body of the effect does not
    catch, is not an event of this model. *)

Inductive event : Type :=
| PressRoute (k : nat)                        (* the k-th button of the list *)
| PermissionSettles (i : nat) (status : string)
| SubscriptionResolves (i : nat)
| PositionUpdate (i : nat) (newLocation : LocationObject) (fetch : Network)
| PressBack.

Definition handler (w : World) (ev : event) : option (M unit) :=
  match ev with
  | PressRoute k =>
      match selectedRoute w, nth_error ROUTES k with
      | None, Some route => Some (setSelectedRoute (Some route) ;; runEffect route)
      | _, _ => None
      end
  | PermissionSettles i status =>
      match nth_error (effects w) i with
      | Some e =>
          match effectStage e with
          | AwaitingPermission => Some (permissionContinuation i e status)
          | _ => None
          end
      | None => None
      end
  | SubscriptionResolves i =>
      match nth_error (effects w) i with
      | Some e =>
          match effectStage e with
          | AwaitingSubscription => Some (subscriptionContinuation i e)
          | _ => None
          end
      | None => None
      end
  | PositionUpdate i newLocation fetch =>
      match nth_error (effects w) i with
      | Some e =>
          if watching e then Some (watchCallback fetch (closureRoute e) newLocation)
          else None
      | None => None
      end
  | PressBack =>
      match selectedRoute w with
      | Some _ =>
          let i := (List.length (effects w) - 1)%nat in
          Some (setSelectedRoute None ;;
                match nth_error (effects w) i with
                | Some e => cleanup i e
                | None => ret tt
                end)
      | None => None
      end
  end.

Definition step (w : World) (ev : event) : option (result unit * World) :=
  match handler w ev with
  | Some m => Some (m w)
  | None => None
  end.

(** A run of the event loop; [None] when some event was not enabled. *)
Fixpoint run (w : World) (evs : list event) : option World :=
  match evs with
  | [] => Some w
  | ev :: rest =>
      match step w ev with
      | Some (_, w') => run w' rest
      | None => None
      end
  end.

Definition reachable (w : World) : Prop :=
  exists evs, run initialWorld evs = Some w.

(** * Notions used in the statements *)

Arguments calculateDistance : simpl never.

(** The test of line 60, [data.routes && data.routes[0]], as a boolean;
    a body on which the test itself throws has no first route either. *)
Definition hasFirstRoute (data : value) : bool :=
  match get_field data "routes" with
  | Ok routes =>
      truthy routes &&
      match get_index routes 0 with
      | Ok route0 => truthy route0
      | Throw _ => false
      end
  | Throw _ => false
  end.

Definition isNullish (v : value) : bool :=
  match v with
  | VUndefined | VNull => true
  | _ => false
  end.

(** The 2xx statuses. *)
Definition successStatus (n : nat) : bool := ((200 <=? n) && (n <? 300))%nat.

(** The failures enumerated for the fetcher: the call throws, the status is
    not 2xx, the body is malformed, or it parses without [routes[0]]. *)
Definition routeFetchFails (o : fetch_outcome) : Prop :=
  match o with
  | FetchRejects _ => True
  | FetchResolves response =>
      successStatus (status response) = false \/
      match json response with
      | JsonRejects _ => True
      | JsonResolves data => hasFirstRoute data = false
      end
  end.

(** A coordinate pair as the service writes it: [[longitude, latitude]]. *)
Definition osrmPair (p : R * R) : value := VArr [VNum (fst p); VNum (snd p)].

(** The path element the pair is mapped to: latitude first. *)
Definition ofOsrmPair (p : R * R) : RouteCoordinates.t :=
  RouteCoordinates.make (VNum (snd p)) (VNum (fst p)).

(** A body with at least one route whose first route carries the geometry
    [pairs]: [data.routes] is an array with a first element [route0], and
    [route0.geometry.coordinates] is the array of the pairs. *)
Definition wellFormedResponse (data : value) (pairs : list (R * R)) : Prop :=
  exists route0 rest geometry,
    get_field data "routes" = Ok (VArr (route0 :: rest)) /\
    get_field route0 "geometry" = Ok geometry /\
    get_field geometry "coordinates" = Ok (VArr (map osrmPair pairs)).

(** The programs that touch nothing but the path and the console. *)
Definition pathOnly {A} (m : M A) : Prop :=
  forall w, location (snd (m w)) = location w /\
            selectedRoute (snd (m w)) = selectedRoute w /\
            effects (snd (m w)) = effects w.

(** An effect instance that has not been granted the permission has no
    live subscription. *)
Definition notYetWatching (e : Effect) : Prop :=
  match effectStage e with
  | AwaitingPermission | PermissionRefused => watching e = false
  | AwaitingSubscription | Subscribed => True
  end.

Definition effectsConsistent (w : World) : Prop :=
  Forall notYetWatching (effects w).

(** An instance that was refused the permission is never resumed, never
    subscribed and never cleaned into anything else. *)
Definition refusedAt (i : nat) (w : World) : Prop :=
  exists route, nth_error (effects w) i = Some (mkEffect route PermissionRefused false).

(** * Concrete positions, responses and sessions *)

Definition cathedralRock : LocationState := mkLocation (348222 / 10000) (- (1117901 / 10000)).
Definition bellRock : LocationState := mkLocation (348032 / 10000) (- (1117761 / 10000)).

Definition bellRockPathway : Route := mkRoute 2 "Bell Rock Pathway" bellRock.

(** The position of the end-to-end scenario: some twenty metres from the
    destination of the Bell Rock Pathway. *)
Definition nearBellRock : LocationState :=
  mkLocation (348030 / 10000) (- (1117760 / 10000)).

(** The point due south of the destination at exactly fifty metres of arc. *)
Definition fiftyMetresSouth : LocationState :=
  mkLocation (348032 / 10000 - 9 / (6371 * PI)) (- (1117761 / 10000)).

(** A position on the meridian of the destination, about 1.1 km south. *)
Definition trailhead : LocationState :=
  mkLocation (347932 / 10000) (- (1117761 / 10000)).

Definition networkDown : Network :=
  fun _ => FetchRejects (NetworkError "Network request failed").

Definition htmlErrorPage : Network :=
  fun _ => FetchResolves
             (mkResponse 502 (JsonRejects (SyntaxError "Unexpected token < in JSON")) ).

(** The answer of the routing service when it finds no route: status 400
    and a body without [routes]. *)
Definition noRouteResponse : Response :=
  mkResponse 400
    (JsonResolves (VObj [("code", VStr "NoRoute");
                         ("message", VStr "Impossible route between points")])).

(** A response of the service with one route of three points. *)
Definition threePoints : list (R * R) :=
  [(- (1117901 / 10000), 348222 / 10000);
   (- (1117850 / 10000), 348150 / 10000);
   (- (1117761 / 10000), 348032 / 10000)].

Definition threePointBody : value :=
  VObj [("code", VStr "Ok");
        ("routes",
         VArr [VObj [("geometry",
                      VObj [("coordinates", VArr (map osrmPair threePoints));
                            ("type", VStr "LineString")]);
                     ("distance", VNum 2290);
                     ("duration", VNum 1650)]]);
        ("waypoints", VArr [])].

Definition threePointService : Network :=
  fun _ => FetchResolves (mkResponse 200 (JsonResolves threePointBody)).

(** The Bell Rock Pathway has just been selected. *)
Definition bellRockSelected : World :=
  mkWorld None (Some bellRockPathway) [] []
    [mkEffect bellRockPathway AwaitingPermission false].

Definition rideThenBack : list event :=
  [ PressRoute 1;
    PermissionSettles 0 "granted";
    SubscriptionResolves 0;
    PositionUpdate 0 (mkLocationObject trailhead 0) networkDown;
    PressBack ].

(** The session of [rideThenBack] just before the back action. *)
Definition riding : World :=
  mkWorld (Some trailhead) (Some bellRockPathway) (straightLine trailhead bellRock)
    [ConsoleError "Error fetching route:" (NetworkError "Network request failed")]
    [mkEffect bellRockPathway Subscribed true].

(** * The camera, and further notions *)

(** A map region: centre and spans, as passed to [MapView]. *)
Record Region : Type := mkRegion {
  centreLatitude : R;
  centreLongitude : R;
  latitudeDelta : R;
  longitudeDelta : R
}.

(** [centerOnLocation] (lines 142-151): the call of [animateToRegion] it
    makes, with its duration, or [None] when it does nothing;
    [mapRefCurrent] tells whether [mapRef.current] is set. *)
Definition centerOnLocation (mapRefCurrent : bool) (w : World) : option (Region * R) :=
  match location w with
  | Some l =>
      if mapRefCurrent
      then Some (mkRegion (latitude l) (longitude l) (1 / 100) (1 / 100), 1000)
      else None
  | None => None
  end.

(** The [initialRegion] of the map (lines 175-180). *)
Definition initialRegion (w : World) : Region :=
  mkRegion
    (match location w with Some l => latitude l | None => 348697 / 10000 end)
    (match location w with Some l => longitude l | None => - (1117609 / 10000) end)
    (922 / 10000) (421 / 10000).

(** The first route of [data] has for [geometry.coordinates] the array
    [elems], of any elements. *)
Definition hasGeometry (data : value) (elems : list value) : Prop :=
  exists route0 rest geometry,
    get_field data "routes" = Ok (VArr (route0 :: rest)) /\
    get_field route0 "geometry" = Ok geometry /\
    get_field geometry "coordinates" = Ok (VArr elems).

(** The position recorded by the updates of a run: that of the last
    [PositionUpdate], or [known] when there is none. *)
Fixpoint lastPosition (known : option LocationState) (evs : list event)
  : option LocationState :=
  match evs with
  | [] => known
  | PositionUpdate _ newLocation _ :: rest =>
      lastPosition
        (Some (mkLocation (latitude (coords newLocation))
                          (longitude (coords newLocation)))) rest
  | _ :: rest => lastPosition known rest
  end.

(** A live subscription that no cleanup will reach: its effect instance is
    not the current one, or no trail is selected. *)
Definition abandonedWatching (i : nat) (w : World) : Prop :=
  (exists e, nth_error (effects w) i = Some e /\ watching e = true) /\
  (selectedRoute w = None \/ (S i < List.length (effects w))%nat).

(** An effect instance whose subscription has been removed. *)
Definition releasedAt (i : nat) (w : World) : Prop :=
  exists route, nth_error (effects w) i = Some (mkEffect route Subscribed false).

(** The selected trail comes from the catalogue and is the one the current
    effect instance tracks. *)
Definition selectionTracked (w : World) : Prop :=
  forall route,
    selectedRoute w = Some route ->
    In route ROUTES /\
    exists e,
      nth_error (effects w) (List.length (effects w) - 1) = Some e /\
      closureRoute e = route.

(** A body with a first route of status 200 instead of 400. *)
Definition noRouteResponseOk : Response :=
  mkResponse 200 (json noRouteResponse).

(** A geometry with a [null] among its points. *)
Definition brokenGeometryBody : value :=
  VObj [("routes",
         VArr [VObj [("geometry",
                      VObj [("coordinates",
                             VArr [osrmPair (- (1117901 / 10000), 348222 / 10000); VNull])])]])].

(** A geometry whose points carry an elevation, and one that is a string. *)
Definition untypedGeometryBody : value :=
  VObj [("routes",
         VArr [VObj [("geometry",
                      VObj [("coordinates",
                             VArr [VArr [VNum (- (1117901 / 10000)); VNum (348222 / 10000);
                                         VNum 1320];
                                   VStr "ab"; VNum 7])])]])].

(** The run of [rideThenBack] up to the position update. *)
Definition ride : list event :=
  [ PressRoute 1;
    PermissionSettles 0 "granted";
    SubscriptionResolves 0;
    PositionUpdate 0 (mkLocationObject trailhead 0) networkDown ].

(** * The distance in binary64

    The code computes in IEEE 754 double precision.  Where a statement
    depends on rounding, [calculateDistance] is read here on the kernel's
    binary64 numbers: [+], [-], [*], [/] and [Math.sqrt] are the primitive
    operations, and [Math.sin], [Math.cos] and [Math.atan2], which
    ECMA-262 leaves to the engine, are answers of the engine, taken as a
    parameter like the answers of the network. *)

Module Binary64.

Import Floats.
Local Open Scope float_scope.

Record Engine : Type := mkEngine {
  Math_sin : float -> float;
  Math_cos : float -> float;
  Math_atan2 : float -> float -> float
}.

(** [Math.PI], the double nearest to the number pi. *)
Definition Math_PI : float := 0x1.921fb54442d18p+1.

Record LocationState : Type := mkLocation {
  latitude : float;
  longitude : float
}.

Definition haversine_a (M : Engine) (point1 point2 : LocationState) : float :=
  let dLat := (latitude point2 - latitude point1) * Math_PI / 180 in
  let dLon := (longitude point2 - longitude point1) * Math_PI / 180 in
  Math_sin M (dLat / 2) * Math_sin M (dLat / 2) +
  Math_cos M (latitude point1 * Math_PI / 180) *
  Math_cos M (latitude point2 * Math_PI / 180) *
  Math_sin M (dLon / 2) * Math_sin M (dLon / 2).

Definition calculateDistance (M : Engine) (point1 point2 : LocationState) : float :=
  let R := 6371 in
  let a := haversine_a M point1 point2 in
  let c := 2 * Math_atan2 M (sqrt a) (sqrt (1 - a)) in
  R * c.

(** The test of line 114. *)
#[warnings="-inexact-float"] Definition arrived (distance : float) : bool := distance <? 0.05.





(** The real number a finite double stands for ([0] for the others). *)
Definition toR (f : float) : R :=
  match Prim2SF f with
  | S754_finite s m e =>
      ((if s then (-1) else 1) * IZR (Zpos m) * powerRZ 2 e)%R
  | _ => 0%R
  end.

(** An [atan2] that is exact where ECMA-262 fixes the result (a zero
    ordinate, a zero abscissa) and answers the angle of the bisector of
    the quadrant elsewhere. *)
Definition axisAtan2 (y x : float) : float :=
  match classify y, classify x with
  | NaN, _ | _, NaN => nan
  | PZero, (PNormal | PSubn | PZero | PInf) => 0
  | PZero, _ => Math_PI
  | NZero, (PNormal | PSubn | PZero | PInf) => -0
  | NZero, _ => - Math_PI
  | (PNormal | PSubn | PInf), (PZero | NZero) => Math_PI / 2
  | (PNormal | PSubn | PInf), (PNormal | PSubn | PInf) => Math_PI / 4
  | (PNormal | PSubn | PInf), _ => 3 * Math_PI / 4
  | _, (PZero | NZero) => - (Math_PI / 2)
  | _, (PNormal | PSubn | PInf) => - (Math_PI / 4)
  | _, _ => - (3 * Math_PI / 4)
  end.

(** The answers of a correctly rounding engine at a zero and at the four
    arguments of the run near the antipode (NaN at any other argument,
    which the runs below never pass). *)
Definition recordedSin (x : float) : float :=
  if x =? 0 then x
  else if x =? 0x1.37011f3658f99p-1 then 0x1.243a948ca7029p-1
  else if x =? -0x1.921fb54442d18p+0 then -1
  else nan.

Definition recordedCos (x : float) : float :=
  if x =? 0 then 1
  else if x =? -0x1.37011f5bd4061p-1 then 0x1.a4697d8db63d3p-1
  else if x =? 0x1.37011f10ddecfp-1 then 0x1.a4697db87f2b2p-1
  else nan.

Definition recordedEngine : Engine := mkEngine recordedSin recordedCos axisAtan2.

(** The destination of the Bell Rock Pathway, and a position within a
    metre of its antipode. *)
#[warnings="-inexact-float"] Definition bellRock : LocationState := mkLocation 34.8032 (-111.7761).


(** The crossing of the equator and the prime meridian, and the position
    one double north of it: its latitude is the least positive double,
    5e-324. *)
Definition equatorOrigin : LocationState := mkLocation 0 0.

Definition oneStepNorth : LocationState := mkLocation 0x1p-1074 0.


(** The factorial as an integer, for the Taylor bounds on the recorded
    answers. *)
Fixpoint Zfact (n : nat) : Z :=
  match n with
  | O => 1%Z
  | S m => (Z.of_nat n * Zfact m)%Z
  end.

End Binary64.

(** * Properties *)

(** ** Facts about [Math.atan2] and the Haversine quantity *)

Section GeoMathFacts.

Lemma atan2_pos_x (y x : R) : 0 < x -> Math.atan2 y x = atan (y / x).
Proof.
  intros Hx. unfold Math.atan2.
  destruct (total_order_T x 0) as [[Hlt | Heq] | Hgt]; lra.
Qed.

Lemma atan2_zero_x_pos_y (y : R) : 0 < y -> Math.atan2 y 0 = PI / 2.
Proof.
  intros Hy. unfold Math.atan2.
  destruct (total_order_T 0 0) as [[Hlt | Heq] | Hgt]; try lra.
  destruct (total_order_T y 0) as [[Hlt | Heq'] | Hgt]; try lra.
Qed.

Lemma atan2_zero_zero : Math.atan2 0 0 = 0.
Proof.
  unfold Math.atan2.
  destruct (total_order_T 0 0) as [[Hlt | Heq] | Hgt]; lra.
Qed.

Lemma atan_nonneg (t : R) : 0 <= t -> 0 <= atan t.
Proof.
  intros [Ht | Ht].
  - left. rewrite <- atan_0. now apply atan_increasing.
  - subst t. rewrite atan_0. lra.
Qed.

(** With a non-negative ordinate and a non-negative abscissa the angle
    lies in the first quadrant. *)
Lemma atan2_first_quadrant (y x : R) :
  0 <= y -> 0 <= x -> 0 <= Math.atan2 y x <= PI / 2.
Proof.
  intros Hy Hx. pose proof PI_RGT_0 as Hpi.
  destruct Hx as [Hx | Hx].
  - rewrite atan2_pos_x by assumption.
    assert (0 <= y / x) as Hq.
    { apply Rmult_le_pos; [assumption | left; now apply Rinv_0_lt_compat]. }
    split; [now apply atan_nonneg | left; apply atan_bound].
  - subst x. destruct Hy as [Hy | Hy].
    + rewrite atan2_zero_x_pos_y by assumption. lra.
    + subst y. rewrite atan2_zero_zero. lra.
Qed.

(** [a] as a convex combination: with [t = sin^2 (dLon/2)] it is
    [(1 - t) * sin^2 (d/2) + t * cos^2 (s/2)], for the difference [d]
    and the sum [s] of the two latitudes in radians. *)
Lemma haversine_a_convex (p q th : R) :
  sin ((q - p) / 2) * sin ((q - p) / 2) + cos p * cos q * sin th * sin th =
  (1 - sin th * sin th) * (sin ((q - p) / 2) * sin ((q - p) / 2)) +
  sin th * sin th * (cos ((q + p) / 2) * cos ((q + p) / 2)).
Proof.
  assert (cos (q - p) = 1 - 2 * sin ((q - p) / 2) * sin ((q - p) / 2)) as Hd.
  { rewrite <- cos_2a_sin. f_equal. field. }
  assert (cos (q + p) = 2 * cos ((q + p) / 2) * cos ((q + p) / 2) - 1) as Hs.
  { rewrite <- cos_2a_cos. f_equal. field. }
  rewrite cos_minus in Hd. rewrite cos_plus in Hs.
  nra.
Qed.

Lemma haversine_a_range (point1 point2 : LocationState) :
  0 <= haversine_a point1 point2 <= 1.
Proof.
  unfold haversine_a. cbv zeta.
  set (p := latitude point1 * PI / 180).
  set (q := latitude point2 * PI / 180).
  set (th := (longitude point2 - longitude point1) * PI / 180 / 2).
  replace ((latitude point2 - latitude point1) * PI / 180 / 2)
    with ((q - p) / 2) by (unfold p, q; field).
  rewrite haversine_a_convex.
  pose proof (sin2_cos2 th) as Ht. unfold Rsqr in Ht.
  pose proof (sin2_cos2 ((q - p) / 2)) as Hd. unfold Rsqr in Hd.
  pose proof (sin2_cos2 ((q + p) / 2)) as Hs. unfold Rsqr in Hs.
  set (st := sin th) in *. set (ct := cos th) in *.
  set (sd := sin ((q - p) / 2)) in *. set (cd := cos ((q - p) / 2)) in *.
  set (ss := sin ((q + p) / 2)) in *. set (cs := cos ((q + p) / 2)) in *.
  assert (0 <= st * st) by nra. assert (0 <= ct * ct) by nra.
  assert (0 <= sd * sd) by nra. assert (0 <= cd * cd) by nra.
  assert (0 <= ss * ss) by nra. assert (0 <= cs * cs) by nra.
  split; nra.
Qed.

Lemma haversine_a_sym (point1 point2 : LocationState) :
  haversine_a point1 point2 = haversine_a point2 point1.
Proof.
  unfold haversine_a. cbv zeta.
  replace ((latitude point1 - latitude point2) * PI / 180 / 2)
    with (- ((latitude point2 - latitude point1) * PI / 180 / 2)) by field.
  replace ((longitude point1 - longitude point2) * PI / 180 / 2)
    with (- ((longitude point2 - longitude point1) * PI / 180 / 2)) by field.
  rewrite !sin_neg. ring.
Qed.

Lemma haversine_a_same (point : LocationState) : haversine_a point point = 0.
Proof.
  unfold haversine_a. cbv zeta.
  replace ((latitude point - latitude point) * PI / 180 / 2) with 0 by field.
  replace ((longitude point - longitude point) * PI / 180 / 2) with 0 by field.
  rewrite sin_0. ring.
Qed.

End GeoMathFacts.

(** C8. Symmetry: for every pair of coordinates [a] and [b],
    [calculateDistance a b] equals [calculateDistance b a] (exactly, on
    real numbers). *)
Theorem calculateDistance_symmetric (a b : LocationState) :
  calculateDistance a b = calculateDistance b a.
Proof.
  unfold calculateDistance. cbv zeta.
  now rewrite (haversine_a_sym a b).
Qed.

(** C9. For every coordinate [a], [calculateDistance a a] equals [0]. *)
Theorem calculateDistance_same_point (a : LocationState) :
  calculateDistance a a = 0.
Proof.
  unfold calculateDistance. cbv zeta.
  rewrite haversine_a_same, Rminus_0_r, sqrt_0, sqrt_1.
  rewrite atan2_pos_x by lra.
  replace (0 / 1) with 0 by field.
  rewrite atan_0. ring.
Qed.

(** ** Distances along a meridian

    Two points of equal longitude whose latitudes differ by at most 180
    degrees are separated by the arc [6371 * dLat]; this gives closed forms
    for the distance at concrete positions. *)

Lemma atan2_sin_cos (x : R) :
  0 <= x <= PI / 2 -> Math.atan2 (sin x) (cos x) = x.
Proof.
  intros [Hx0 Hx1]. destruct Hx1 as [Hx1 | Hx1].
  - assert (0 < cos x) as Hc by (apply cos_gt_0; lra).
    rewrite atan2_pos_x by assumption.
    change (sin x / cos x) with (tan x).
    apply atan_tan. lra.
  - subst x. rewrite cos_PI2, sin_PI2.
    apply atan2_zero_x_pos_y. lra.
Qed.

Lemma calculateDistance_meridian (point1 point2 : LocationState) :
  longitude point1 = longitude point2 ->
  0 <= latitude point2 - latitude point1 <= 180 ->
  calculateDistance point1 point2 =
  6371 * ((latitude point2 - latitude point1) * PI / 180).
Proof.
  intros Hlon Hlat. pose proof PI_RGT_0 as Hpi.
  unfold calculateDistance, haversine_a. cbv zeta.
  rewrite Hlon.
  replace ((longitude point2 - longitude point2) * PI / 180 / 2) with 0 by field.
  rewrite sin_0.
  set (x := (latitude point2 - latitude point1) * PI / 180 / 2).
  assert (0 <= x <= PI / 2) as Hx by (unfold x; split; nra).
  assert (0 <= sin x) as Hs by (apply sin_ge_0; lra).
  assert (0 <= cos x) as Hc by (apply cos_ge_0; lra).
  replace (sin x * sin x + cos (latitude point1 * PI / 180) *
           cos (latitude point2 * PI / 180) * 0 * 0) with (sin x * sin x) by ring.
  replace (1 - sin x * sin x) with (cos x * cos x)
    by (pose proof (sin2_cos2 x) as H; unfold Rsqr in H; lra).
  rewrite !sqrt_square by assumption.
  rewrite atan2_sin_cos by assumption.
  unfold x. field.
Qed.

(** ** The route fetcher: what each behaviour of the network leads to *)

Section FetcherFacts.

Variables (fetch : Network) (start end_ : LocationState) (w : World).

(** The handler of the [catch] clause cannot throw, so the whole
    function returns normally whatever the [try] block does. *)
Lemma fetchRouteCoordinates_total :
  exists w', fetchRouteCoordinates fetch start end_ w = (Ok tt, w').
Proof.
  unfold fetchRouteCoordinates, try_catch.
  destruct (fetchRouteCoordinates_try fetch start end_ w) as [[[] | e] w1].
  - now exists w1.
  - cbn. eexists. reflexivity.
Qed.

Lemma fetchRouteCoordinates_on_throw (e : exn) (w1 : World) :
  fetchRouteCoordinates_try fetch start end_ w = (Throw e, w1) ->
  routeCoordinates (exec (fetchRouteCoordinates fetch start end_) w) =
  straightLine start end_.
Proof.
  intros Htry. unfold exec, fetchRouteCoordinates, try_catch.
  rewrite Htry. reflexivity.
Qed.

Lemma fetch_rejects_fallback (e : exn) :
  fetch (routeUrl start end_) = FetchRejects e ->
  routeCoordinates (exec (fetchRouteCoordinates fetch start end_) w) =
  straightLine start end_.
Proof.
  intros Hf. apply (fetchRouteCoordinates_on_throw e w).
  unfold fetchRouteCoordinates_try. rewrite Hf. reflexivity.
Qed.

Lemma json_rejects_fallback (response : Response) (e : exn) :
  fetch (routeUrl start end_) = FetchResolves response ->
  json response = JsonRejects e ->
  routeCoordinates (exec (fetchRouteCoordinates fetch start end_) w) =
  straightLine start end_.
Proof.
  intros Hf Hj. apply (fetchRouteCoordinates_on_throw e w).
  unfold fetchRouteCoordinates_try. rewrite Hf. cbn.
  unfold await_json. rewrite Hj. reflexivity.
Qed.

End FetcherFacts.

Lemma no_first_route_unchanged (fetch : Network) (start end_ : LocationState)
    (w : World) (response : Response) (data : value) :
  fetch (routeUrl start end_) = FetchResolves response ->
  json response = JsonResolves data ->
  isNullish data = false ->
  hasFirstRoute data = false ->
  fetchRouteCoordinates fetch start end_ w = (Ok tt, w).
Proof.
  intros Hf Hj Hnull Hno.
  unfold fetchRouteCoordinates, try_catch, fetchRouteCoordinates_try.
  rewrite Hf. cbn. unfold await_json. rewrite Hj. cbn.
  unfold hasFirstRoute in Hno.
  destruct (get_field data "routes") as [routes | e] eqn:Hr.
  - cbn. destruct (truthy routes) eqn:Ht; cbn.
    + destruct (get_index routes 0) as [route0 | e] eqn:Hi; cbn.
      * cbn in Hno. rewrite Hno. reflexivity.
      * destruct routes; cbn in Hi; discriminate.
    + rewrite Ht. reflexivity.
  - destruct data; cbn in Hr, Hnull; discriminate.
Qed.

(** C1, as stated, fails: the service answers a request with status 400 and
    a body without [routes]; the fetcher leaves the path empty as it was
    and does not set it to [[start, end]]. *)
Lemma no_route_response_is_not_fallback :
  routeFetchFails (FetchResolves noRouteResponse) /\
  routeCoordinates
    (exec (fetchRouteCoordinates (fun _ => FetchResolves noRouteResponse)
             cathedralRock bellRock) initialWorld) = [] /\
  routeCoordinates
    (exec (fetchRouteCoordinates (fun _ => FetchResolves noRouteResponse)
             cathedralRock bellRock) initialWorld) <> straightLine cathedralRock bellRock.
Proof.
  assert (fetchRouteCoordinates (fun _ => FetchResolves noRouteResponse)
            cathedralRock bellRock initialWorld = (Ok tt, initialWorld)) as Hrun.
  { now apply (no_first_route_unchanged _ _ _ _ noRouteResponse
                 (VObj [("code", VStr "NoRoute");
                        ("message", VStr "Impossible route between points")])). }
  unfold exec. rewrite Hrun. cbn.
  repeat split; [now left | discriminate].
Qed.

(** C1, amended.  When the HTTP call throws, or the response body fails to
    parse, the path is set to exactly [[start, end]].  When the body parses
    to a value other than [null] that has no truthy [routes[0]], whatever
    the status, the fetcher changes nothing: the path stays as it was. *)
Theorem fetchRouteCoordinates_fallback_on_exception
    (fetch : Network) (start end_ : LocationState) (w : World) :
  (forall e, fetch (routeUrl start end_) = FetchRejects e ->
     routeCoordinates (exec (fetchRouteCoordinates fetch start end_) w) =
     straightLine start end_) /\
  (forall response e,
     fetch (routeUrl start end_) = FetchResolves response ->
     json response = JsonRejects e ->
     routeCoordinates (exec (fetchRouteCoordinates fetch start end_) w) =
     straightLine start end_) /\
  (forall response data,
     fetch (routeUrl start end_) = FetchResolves response ->
     json response = JsonResolves data ->
     isNullish data = false ->
     hasFirstRoute data = false ->
     routeCoordinates (exec (fetchRouteCoordinates fetch start end_) w) =
     routeCoordinates w).
Proof.
  repeat split.
  - intros e. apply fetch_rejects_fallback.
  - intros response e. apply json_rejects_fallback.
  - intros response data Hf Hj Hnull Hno. unfold exec.
    now rewrite (no_first_route_unchanged _ _ _ _ response data).
Qed.

(** C6. Whatever the routing call does, [fetchRouteCoordinates] returns
    normally: no exception reaches its caller. *)
Theorem fetchRouteCoordinates_never_raises
    (fetch : Network) (start end_ : LocationState) (w : World) :
  exists w', fetchRouteCoordinates fetch start end_ w = (Ok tt, w').
Proof.
  apply fetchRouteCoordinates_total.
Qed.

Lemma fetchRouteCoordinates_fallback_on_exception_witness :
  routeCoordinates (exec (fetchRouteCoordinates networkDown cathedralRock bellRock)
                      initialWorld) = straightLine cathedralRock bellRock /\
  routeCoordinates (exec (fetchRouteCoordinates htmlErrorPage cathedralRock bellRock)
                      initialWorld) = straightLine cathedralRock bellRock /\
  routeCoordinates (exec (fetchRouteCoordinates (fun _ => FetchResolves noRouteResponse)
                            cathedralRock bellRock) initialWorld) =
  routeCoordinates initialWorld.
Proof.
  split; [| split].
  - apply (proj1 (fetchRouteCoordinates_fallback_on_exception
                    networkDown cathedralRock bellRock initialWorld)
             (NetworkError "Network request failed")).
    reflexivity.
  - apply (proj1 (proj2 (fetchRouteCoordinates_fallback_on_exception
                           htmlErrorPage cathedralRock bellRock initialWorld))
             (mkResponse 502 (JsonRejects (SyntaxError "Unexpected token < in JSON")))
             (SyntaxError "Unexpected token < in JSON")); reflexivity.
  - apply (proj2 (proj2 (fetchRouteCoordinates_fallback_on_exception
                           (fun _ => FetchResolves noRouteResponse)
                           cathedralRock bellRock initialWorld))
             noRouteResponse
             (VObj [("code", VStr "NoRoute");
                    ("message", VStr "Impossible route between points")]));
      reflexivity.
Defined.

(** ** Well-formed responses *)

Lemma map_elems_osrm (pairs : list (R * R)) :
  map_elems toRouteCoordinates (map osrmPair pairs) = Ok (map ofOsrmPair pairs).
Proof.
  induction pairs as [| p pairs IH]; cbn.
  - reflexivity.
  - rewrite IH. reflexivity.
Qed.

Lemma get_field_defined_truthy (v : value) (k k' : string) (x y : value) :
  get_field v k = Ok x -> get_field x k' = Ok y -> truthy v = true.
Proof.
  intros Hv Hx.
  destruct v; cbn in Hv; try discriminate; try reflexivity;
    injection Hv as <-; cbn in Hx; discriminate.
Qed.

Lemma well_formed_sets_path (fetch : Network) (start end_ : LocationState)
    (w : World) (response : Response) (data : value) (pairs : list (R * R)) :
  fetch (routeUrl start end_) = FetchResolves response ->
  json response = JsonResolves data ->
  wellFormedResponse data pairs ->
  routeCoordinates (exec (fetchRouteCoordinates fetch start end_) w) =
  map ofOsrmPair pairs.
Proof.
  intros Hf Hj (route0 & rest & geometry & Hroutes & Hgeo & Hcoords).
  assert (truthy route0 = true) as Htruthy
    by exact (get_field_defined_truthy _ _ _ _ _ Hgeo Hcoords).
  unfold exec, fetchRouteCoordinates, try_catch, fetchRouteCoordinates_try.
  rewrite Hf. cbn. unfold await_json. rewrite Hj. cbn.
  rewrite Hroutes. cbn. rewrite Htruthy. cbn.
  rewrite Hgeo. cbn. rewrite Hcoords. cbn.
  rewrite map_elems_osrm. reflexivity.
Qed.

(** C4. On a well-formed response with at least one route the path has the
    length of the geometry of the first route, in the same order, and its
    i-th element has for latitude the second and for longitude the first
    component of the i-th pair. *)
Theorem fetchRouteCoordinates_maps_geometry
    (fetch : Network) (start end_ : LocationState) (w : World)
    (response : Response) (data : value) (pairs : list (R * R)) :
  fetch (routeUrl start end_) = FetchResolves response ->
  json response = JsonResolves data ->
  wellFormedResponse data pairs ->
  let path := routeCoordinates (exec (fetchRouteCoordinates fetch start end_) w) in
  List.length path = List.length pairs /\
  forall i lon lat,
    nth_error pairs i = Some (lon, lat) ->
    nth_error path i = Some (RouteCoordinates.make (VNum lat) (VNum lon)).
Proof.
  intros Hf Hj Hwf path. unfold path.
  rewrite (well_formed_sets_path fetch start end_ w response data pairs Hf Hj Hwf).
  split.
  - apply length_map.
  - intros i lon lat Hi. rewrite nth_error_map, Hi. reflexivity.
Qed.

Lemma fetchRouteCoordinates_maps_geometry_witness :
  let path := routeCoordinates
                (exec (fetchRouteCoordinates threePointService cathedralRock bellRock)
                   initialWorld) in
  List.length path = 3%nat /\
  forall i lon lat,
    nth_error threePoints i = Some (lon, lat) ->
    nth_error path i = Some (RouteCoordinates.make (VNum lat) (VNum lon)).
Proof.
  apply (fetchRouteCoordinates_maps_geometry threePointService cathedralRock bellRock
           initialWorld (mkResponse 200 (JsonResolves threePointBody)) threePointBody
           threePoints).
  - reflexivity.
  - reflexivity.
  - eexists _, _, _. cbn. repeat split; reflexivity.
Defined.

(** ** Small distances

    The angle [c / 2] of the formula is the one whose sine is [sqrt a]; a
    bound on [a] therefore bounds the distance. *)

Lemma sin_sq_le_sq (x : R) : sin x * sin x <= x * x.
Proof.
  pose proof (SIN_bound x) as Hb.
  destruct (Rtotal_order x 0) as [Hneg | [Hzero | Hpos]].
  - pose proof (sin_gt_x x Hneg) as Hlo.
    destruct (Rle_dec x (-1)) as [Hbig | Hsmall].
    + nra.
    + assert (sin x < 0) as Hs.
      { rewrite <- (Ropp_involutive x), sin_neg.
        pose proof PI2_1. pose proof (sin_gt_0 (- x)). lra. }
      nra.
  - subst x. rewrite sin_0. lra.
  - pose proof (sin_lt_x x Hpos) as Hhi.
    destruct (Rle_dec 1 x) as [Hbig | Hsmall].
    + nra.
    + assert (0 < sin x) as Hs.
      { pose proof PI2_1. apply sin_gt_0; lra. }
      nra.
Qed.

Lemma haversine_a_le_squares (point1 point2 : LocationState) :
  let x := (latitude point2 - latitude point1) * PI / 180 / 2 in
  let y := (longitude point2 - longitude point1) * PI / 180 / 2 in
  haversine_a point1 point2 <= x * x + y * y.
Proof.
  intros x y. unfold haversine_a. cbv zeta. fold x. fold y.
  pose proof (sin_sq_le_sq x) as Hx. pose proof (sin_sq_le_sq y) as Hy.
  pose proof (COS_bound (latitude point1 * PI / 180)) as Hp.
  pose proof (COS_bound (latitude point2 * PI / 180)) as Hq.
  set (cp := cos (latitude point1 * PI / 180)) in *.
  set (cq := cos (latitude point2 * PI / 180)) in *.
  assert (cp * cq <= 1) as Hpq by nra.
  assert (0 <= sin y * sin y) as Hsy by nra.
  nra.
Qed.

Lemma calculateDistance_lt_arc (point1 point2 : LocationState) (eps : R) :
  0 < eps < PI / 2 ->
  haversine_a point1 point2 < sin eps * sin eps ->
  calculateDistance point1 point2 < 6371 * (2 * eps).
Proof.
  intros Heps Ha.
  pose proof (haversine_a_range point1 point2) as [Ha0 Ha1].
  unfold calculateDistance. cbv zeta.
  set (a := haversine_a point1 point2) in *.
  assert (0 < sin eps) as Hs by (apply sin_gt_0; lra).
  assert (0 < cos eps) as Hc by (apply cos_gt_0; lra).
  pose proof (sin2_cos2 eps) as Hsc. unfold Rsqr in Hsc.
  assert (sqrt a < sin eps) as Hsa.
  { rewrite <- (sqrt_square (sin eps)) by lra. apply sqrt_lt_1; nra. }
  assert (cos eps < sqrt (1 - a)) as Hca.
  { rewrite <- (sqrt_square (cos eps)) by lra. apply sqrt_lt_1; nra. }
  pose proof (sqrt_pos a) as Hsa0.
  rewrite atan2_pos_x by lra.
  assert (atan (sqrt a / sqrt (1 - a)) < eps) as Hatan.
  { rewrite <- (atan_tan eps) by lra.
    apply atan_increasing. unfold tan.
    apply Rle_lt_trans with (sqrt a / cos eps).
    - unfold Rdiv. apply Rmult_le_compat_l; [assumption |].
      apply Rinv_le_contravar; lra.
    - unfold Rdiv. apply Rmult_lt_compat_r; [now apply Rinv_0_lt_compat | assumption]. }
  lra.
Qed.

(** [x - x^3 / 6 <= sin x] on [[0, PI]], the first alternating bound. *)
Lemma sin_ge_cubic (x : R) : 0 <= x <= PI -> x - x * x * x / 6 <= sin x.
Proof.
  intros [Hx0 Hx1].
  pose proof (sin_bound x 0 Hx0 Hx1) as [Hlo _].
  unfold sin_approx, sin_term in Hlo. cbn in Hlo.
  lra.
Qed.

Lemma nearBellRock_has_arrived : calculateDistance nearBellRock bellRock < 5 / 100.
Proof.
  pose proof PI_RGT_0 as Hpi0. pose proof PI_4 as Hpi4. pose proof PI2_1 as Hpi2.
  set (eps := 5 / 100 / 12742).
  replace (5 / 100) with (6371 * (2 * eps)) by (unfold eps; field).
  assert (0 < eps <= 1 / 1000) as Heps by (unfold eps; lra).
  apply calculateDistance_lt_arc; [lra |].
  pose proof (sin_ge_cubic eps) as Hsin.
  assert (5 / 6 * eps <= sin eps) as Hlow.
  { assert (eps * eps * eps / 6 <= eps / 6) by nra. lra. }
  eapply Rle_lt_trans; [apply haversine_a_le_squares |].
  cbn [nearBellRock bellRock latitude longitude].
  assert ((348032 / 10000 - 348030 / 10000) * PI / 180 / 2 = PI / 1800000) as -> by field.
  assert ((- (1117761 / 10000) - - (1117760 / 10000)) * PI / 180 / 2 = - (PI / 3600000))
    as -> by field.
  assert (PI / 1800000 * (PI / 1800000) + - (PI / 3600000) * - (PI / 3600000)
          < 5 / 6 * eps * (5 / 6 * eps)) as Hnum.
  { unfold eps. nra. }
  nra.
Qed.

(** ** The position callback *)

Lemma pathOnly_ret {A} (a : A) : pathOnly (ret a).
Proof. intros w. now cbn. Qed.

Lemma pathOnly_lift {A} (r : result A) : pathOnly (lift r).
Proof. intros w. now cbn. Qed.

Lemma pathOnly_setRouteCoordinates cs : pathOnly (setRouteCoordinates cs).
Proof. intros w. now cbn. Qed.

Lemma pathOnly_console_write entry : pathOnly (console_write entry).
Proof. intros w. now cbn. Qed.

Lemma pathOnly_bind {A B} (m : M A) (k : A -> M B) :
  pathOnly m -> (forall a, pathOnly (k a)) -> pathOnly (bind m k).
Proof.
  intros Hm Hk w. unfold bind.
  specialize (Hm w). destruct (m w) as [[a | e] w1]; cbn in *.
  - destruct (Hk a w1) as (H1 & H2 & H3), Hm as (G1 & G2 & G3).
    repeat split; congruence.
  - exact Hm.
Qed.

Lemma pathOnly_try_catch {A} (m : M A) (h : exn -> M A) :
  pathOnly m -> (forall e, pathOnly (h e)) -> pathOnly (try_catch m h).
Proof.
  intros Hm Hh w. unfold try_catch.
  specialize (Hm w). destruct (m w) as [[a | e] w1]; cbn in *.
  - exact Hm.
  - destruct (Hh e w1) as (H1 & H2 & H3), Hm as (G1 & G2 & G3).
    repeat split; congruence.
Qed.

Create HintDb path_only.

#[local] Hint Resolve pathOnly_ret pathOnly_lift pathOnly_setRouteCoordinates
  pathOnly_console_write : path_only.

Lemma pathOnly_fetchRouteCoordinates fetch start end_ :
  pathOnly (fetchRouteCoordinates fetch start end_).
Proof.
  unfold fetchRouteCoordinates, fetchRouteCoordinates_try.
  apply pathOnly_try_catch.
  - apply pathOnly_bind.
    { unfold await_fetch. destruct (fetch _); auto with path_only. }
    intros response. apply pathOnly_bind.
    { unfold await_json. destruct (json response); auto with path_only. }
    intros data. apply pathOnly_bind; [auto with path_only |].
    intros routes. apply pathOnly_bind.
    { destruct (truthy routes); auto with path_only. }
    intros guard. destruct (truthy guard); [| auto with path_only].
    repeat (apply pathOnly_bind; [auto with path_only | intros ?]).
    auto with path_only.
  - intros e. apply pathOnly_bind; auto with path_only.
Qed.

Section CallbackFacts.

Variables (fetch : Network) (route : Route) (newLocation : LocationObject)
          (w : World).

Let currentPosition : LocationState :=
  mkLocation (latitude (coords newLocation)) (longitude (coords newLocation)).

(** The world once the position is recorded and the refreshed path
    applied, before arrival is evaluated. *)
Let fetched : World :=
  exec (fetchRouteCoordinates fetch currentPosition (endLocation route))
    (exec (setLocation currentPosition) w).

Lemma watchCallback_steps :
  watchCallback fetch route newLocation w =
  (Ok tt,
   if Rlt_dec (calculateDistance currentPosition (endLocation route)) (5 / 100)
   then exec (setRouteCoordinates []) fetched
   else fetched).
Proof.
  unfold fetched, exec, watchCallback. fold currentPosition.
  unfold bind at 1. cbn [setLocation snd].
  unfold bind at 1.
  destruct (fetchRouteCoordinates_total fetch currentPosition (endLocation route)
              (mkWorld (Some currentPosition) (selectedRoute w)
                 (routeCoordinates w) (console w) (effects w))) as [w2 Hw2].
  rewrite Hw2. cbn [snd].
  destruct (Rlt_dec _ _); reflexivity.
Qed.

Lemma watchCallback_location :
  location (exec (watchCallback fetch route newLocation) w) = Some currentPosition.
Proof.
  unfold exec. rewrite watchCallback_steps. cbn [snd].
  assert (location fetched = Some currentPosition) as Hloc.
  { unfold fetched, exec.
    destruct (pathOnly_fetchRouteCoordinates fetch currentPosition (endLocation route)
                (snd (setLocation currentPosition w))) as (H & _ & _).
    rewrite H. reflexivity. }
  destruct (Rlt_dec _ _); cbn; assumption.
Qed.

Lemma watchCallback_arrived :
  calculateDistance currentPosition (endLocation route) < 5 / 100 ->
  routeCoordinates (exec (watchCallback fetch route newLocation) w) = [].
Proof.
  intros Hd. unfold exec. rewrite watchCallback_steps. cbn [snd].
  destruct (Rlt_dec _ _) as [_ | Hn]; [reflexivity | contradiction].
Qed.

Lemma watchCallback_not_arrived :
  ~ calculateDistance currentPosition (endLocation route) < 5 / 100 ->
  exec (watchCallback fetch route newLocation) w = fetched.
Proof.
  intros Hd. unfold exec at 1. rewrite watchCallback_steps. cbn [snd].
  destruct (Rlt_dec _ _) as [Hy | _]; [contradiction | reflexivity].
Qed.

End CallbackFacts.

(** C3. A distance strictly below 0.05 km clears the path, and a distance
    of exactly 0.05 km leaves the path as the fetch of that update set it. *)
Theorem arrival_threshold_is_exclusive
    (fetch : Network) (route : Route) (newLocation : LocationObject) (w : World) :
  let currentPosition :=
    mkLocation (latitude (coords newLocation)) (longitude (coords newLocation)) in
  let distance := calculateDistance currentPosition (endLocation route) in
  let fetched :=
    exec (fetchRouteCoordinates fetch currentPosition (endLocation route))
      (exec (setLocation currentPosition) w) in
  let final := exec (watchCallback fetch route newLocation) w in
  (distance < 5 / 100 -> routeCoordinates final = []) /\
  (distance = 5 / 100 -> routeCoordinates final = routeCoordinates fetched).
Proof.
  cbv zeta. split.
  - apply watchCallback_arrived.
  - intros Heq. rewrite watchCallback_not_arrived; [reflexivity | lra].
Qed.

Lemma fiftyMetresSouth_distance :
  calculateDistance fiftyMetresSouth bellRock = 5 / 100.
Proof.
  pose proof PI2_1 as Hpi.
  rewrite calculateDistance_meridian.
  - cbn [fiftyMetresSouth bellRock latitude]. field. lra.
  - reflexivity.
  - cbn [fiftyMetresSouth bellRock latitude].
    replace (348032 / 10000 - (348032 / 10000 - 9 / (6371 * PI)))
      with (9 / (6371 * PI)) by (field; lra).
    assert (9 / (6371 * PI) * (6371 * PI) = 9) as Hq by (field; lra).
    set (q := 9 / (6371 * PI)) in *.
    split; nra.
Qed.

Lemma arrival_threshold_is_exclusive_witness :
  (calculateDistance nearBellRock bellRock < 5 / 100 /\
   routeCoordinates
     (exec (watchCallback networkDown bellRockPathway (mkLocationObject nearBellRock 0))
        initialWorld) = []) /\
  (calculateDistance fiftyMetresSouth bellRock = 5 / 100 /\
   routeCoordinates
     (exec (watchCallback networkDown bellRockPathway (mkLocationObject fiftyMetresSouth 0))
        initialWorld) = straightLine fiftyMetresSouth bellRock).
Proof.
  split; split.
  - exact nearBellRock_has_arrived.
  - apply (proj1 (arrival_threshold_is_exclusive networkDown bellRockPathway
                    (mkLocationObject nearBellRock 0) initialWorld)).
    exact nearBellRock_has_arrived.
  - exact fiftyMetresSouth_distance.
  - rewrite (proj2 (arrival_threshold_is_exclusive networkDown bellRockPathway
                      (mkLocationObject fiftyMetresSouth 0) initialWorld)).
    + reflexivity.
    + exact fiftyMetresSouth_distance.
Defined.

(** C5. One update records the position, then fetches and applies the
    path, then evaluates arrival on the result; so a distance below
    0.05 km leaves the path empty whatever the fetch did. *)
Theorem position_update_order
    (fetch : Network) (route : Route) (newLocation : LocationObject) (w : World) :
  let currentPosition :=
    mkLocation (latitude (coords newLocation)) (longitude (coords newLocation)) in
  let distance := calculateDistance currentPosition (endLocation route) in
  let recorded := exec (setLocation currentPosition) w in
  let fetched :=
    exec (fetchRouteCoordinates fetch currentPosition (endLocation route)) recorded in
  let final := exec (watchCallback fetch route newLocation) w in
  location recorded = Some currentPosition /\
  final = (if Rlt_dec distance (5 / 100)
           then exec (setRouteCoordinates []) fetched else fetched) /\
  location final = Some currentPosition /\
  (distance < 5 / 100 -> routeCoordinates final = []).
Proof.
  cbv zeta. repeat split.
  - unfold exec at 1. now rewrite watchCallback_steps.
  - apply watchCallback_location.
  - apply watchCallback_arrived.
Qed.

Lemma position_update_order_witness :
  calculateDistance nearBellRock bellRock < 5 / 100 /\
  routeCoordinates
    (exec (watchCallback threePointService bellRockPathway
             (mkLocationObject nearBellRock 0)) initialWorld) = [].
Proof.
  split.
  - exact nearBellRock_has_arrived.
  - apply (proj2 (proj2 (proj2 (position_update_order threePointService bellRockPathway
                                  (mkLocationObject nearBellRock 0) initialWorld)))).
    exact nearBellRock_has_arrived.
Defined.

(** ** Invariants of the event loop *)

Lemma Forall_replace_nth {A} (P : A -> Prop) (l : list A) (i : nat) (a : A) :
  Forall P l -> P a -> Forall P (replace_nth i a l).
Proof.
  intros Hl Ha. revert i.
  induction Hl as [| x l Hx Hl IH]; intros [| i]; cbn; auto.
Qed.

Lemma nth_error_replace_nth_other {A} (l : list A) (i j : nat) (a : A) :
  i <> j -> nth_error (replace_nth i a l) j = nth_error l j.
Proof.
  revert i j. induction l as [| x l IH]; intros [| i] [| j] Hij; cbn;
    try reflexivity; try congruence.
  apply IH. congruence.
Qed.

Lemma map_watching_replace_nth (l : list Effect) (i : nat) (e e' : Effect) :
  nth_error l i = Some e -> watching e' = watching e ->
  map watching (replace_nth i e' l) = map watching l.
Proof.
  revert i. induction l as [| x l IH]; intros [| i] Hi Hw; cbn in *;
    try discriminate.
  - injection Hi as ->. now rewrite Hw.
  - f_equal. now apply IH.
Qed.

Lemma watchCallback_effects fetch route newLocation w :
  effects (exec (watchCallback fetch route newLocation) w) = effects w.
Proof.
  unfold exec. rewrite watchCallback_steps. cbn [snd].
  set (p := mkLocation _ _).
  destruct (pathOnly_fetchRouteCoordinates fetch p (endLocation route)
              (exec (setLocation p) w)) as (_ & _ & He).
  fold (exec (fetchRouteCoordinates fetch p (endLocation route))
          (exec (setLocation p) w)) in He.
  set (fetched := exec (fetchRouteCoordinates fetch p (endLocation route)) _) in *.
  destruct (Rlt_dec _ _); [change (effects fetched = effects w) |]; exact He.
Qed.

Lemma step_consistent (w : World) (ev : event) (r : result unit) (w' : World) :
  effectsConsistent w -> step w ev = Some (r, w') -> effectsConsistent w'.
Proof.
  unfold effectsConsistent, step. intros Hinv Hstep.
  destruct ev as [k | i status | i | i newLocation fetch |]; cbn in Hstep.
  - destruct (selectedRoute w); [discriminate |].
    destruct (nth_error ROUTES k) as [route |]; [| discriminate].
    injection Hstep as _ <-. cbn.
    apply Forall_app. split; [assumption |].
    constructor; [reflexivity | constructor].
  - destruct (nth_error (effects w) i) as [e |] eqn:He; [| discriminate].
    pose proof (proj1 (Forall_forall _ _) Hinv e (nth_error_In _ _ He)) as Hidle.
    unfold notYetWatching in Hidle.
    destruct (effectStage e) eqn:Hst; try discriminate.
    unfold permissionContinuation in Hstep.
    destruct (negb (String.eqb status "granted"));
      injection Hstep as _ <-; cbn;
      apply Forall_replace_nth; try assumption; cbn; auto.
  - destruct (nth_error (effects w) i) as [e |] eqn:He; [| discriminate].
    destruct (effectStage e) eqn:Hst; try discriminate.
    injection Hstep as _ <-. cbn.
    apply Forall_replace_nth; [assumption | exact I].
  - destruct (nth_error (effects w) i) as [e |] eqn:He; [| discriminate].
    destruct (watching e); [| discriminate].
    injection Hstep as Hw'.
    assert (w' = exec (watchCallback fetch (closureRoute e) newLocation) w) as ->
      by (unfold exec; now rewrite Hw').
    now rewrite watchCallback_effects.
  - destruct (selectedRoute w); [| discriminate].
    destruct (nth_error (effects w) (List.length (effects w) - 1)) as [e |] eqn:He.
    + unfold cleanup in Hstep. unfold bind in Hstep. cbn in Hstep.
      destruct (effectStage e) eqn:Hst; injection Hstep as _ <-; cbn;
        try assumption.
      apply Forall_replace_nth; [assumption | exact I].
    + injection Hstep as _ <-. cbn. assumption.
Qed.

Lemma run_consistent (evs : list event) (w w' : World) :
  effectsConsistent w -> run w evs = Some w' -> effectsConsistent w'.
Proof.
  revert w. induction evs as [| ev evs IH]; intros w Hinv Hrun; cbn in Hrun.
  - now injection Hrun as <-.
  - destruct (step w ev) as [[r w1] |] eqn:Hstep; [| discriminate].
    apply (IH w1); [| assumption].
    exact (step_consistent w ev r w1 Hinv Hstep).
Qed.

Lemma reachable_consistent (w : World) : reachable w -> effectsConsistent w.
Proof.
  intros [evs Hrun]. apply (run_consistent evs initialWorld); [constructor | assumption].
Qed.

Lemma step_refused (i : nat) (w : World) (ev : event) (r : result unit) (w' : World) :
  refusedAt i w -> step w ev = Some (r, w') -> refusedAt i w'.
Proof.
  unfold refusedAt, step. intros [route Hi] Hstep. exists route.
  destruct ev as [k | j status | j | j newLocation fetch |]; cbn in Hstep.
  - destruct (selectedRoute w); [discriminate |].
    destruct (nth_error ROUTES k) as [route' |]; [| discriminate].
    injection Hstep as _ <-. cbn.
    rewrite nth_error_app1; [assumption |].
    apply nth_error_Some. congruence.
  - destruct (nth_error (effects w) j) as [e |] eqn:He; [| discriminate].
    destruct (effectStage e) eqn:Hst; try discriminate.
    assert (j <> i) as Hji.
    { intros ->. rewrite Hi in He. injection He as <-. discriminate. }
    unfold permissionContinuation in Hstep.
    destruct (negb (String.eqb status "granted"));
      injection Hstep as _ <-; cbn;
      now rewrite nth_error_replace_nth_other.
  - destruct (nth_error (effects w) j) as [e |] eqn:He; [| discriminate].
    destruct (effectStage e) eqn:Hst; try discriminate.
    assert (j <> i) as Hji.
    { intros ->. rewrite Hi in He. injection He as <-. discriminate. }
    injection Hstep as _ <-. cbn.
    now rewrite nth_error_replace_nth_other.
  - destruct (nth_error (effects w) j) as [e |] eqn:He; [| discriminate].
    destruct (watching e); [| discriminate].
    injection Hstep as Hw'.
    assert (w' = exec (watchCallback fetch (closureRoute e) newLocation) w) as ->
      by (unfold exec; now rewrite Hw').
    now rewrite watchCallback_effects.
  - destruct (selectedRoute w); [| discriminate].
    destruct (nth_error (effects w) (List.length (effects w) - 1)) as [e |] eqn:He.
    + unfold cleanup in Hstep. unfold bind in Hstep. cbn in Hstep.
      destruct (effectStage e) eqn:Hst; injection Hstep as _ <-; cbn;
        try assumption.
      assert ((List.length (effects w) - 1)%nat <> i) as Hji.
      { intros Heq. rewrite Heq, Hi in He. injection He as <-. discriminate. }
      now rewrite nth_error_replace_nth_other.
    + injection Hstep as _ <-. cbn. assumption.
Qed.

Lemma run_refused (i : nat) (evs : list event) (w w' : World) :
  refusedAt i w -> run w evs = Some w' -> refusedAt i w'.
Proof.
  revert w. induction evs as [| ev evs IH]; intros w Hinv Hrun; cbn in Hrun.
  - now injection Hrun as <-.
  - destruct (step w ev) as [[r w1] |] eqn:Hstep; [| discriminate].
    apply (IH w1); [| assumption].
    exact (step_refused i w ev r w1 Hinv Hstep).
Qed.

Lemma refused_no_update (i : nat) (w : World) newLocation fetch :
  refusedAt i w -> step w (PositionUpdate i newLocation fetch) = None.
Proof.
  intros [route Hi]. unfold step. cbn. rewrite Hi. reflexivity.
Qed.

Lemma nth_error_replace_nth_same {A} (l : list A) (i : nat) (a x : A) :
  nth_error l i = Some x -> nth_error (replace_nth i a l) i = Some a.
Proof.
  revert i. induction l as [| y l IH]; intros [| i] Hi; cbn in *;
    try discriminate; [reflexivity | now apply IH].
Qed.

(** C7. When the permission request of a session settles with a status
    other than ['granted'], the continuation returns normally, leaves the
    tracked position and the path untouched and starts no subscription;
    from then on the session stays refused and no position update is ever
    delivered to it. *)
Theorem permission_denied_stops_session
    (w : World) (i : nat) (status : string) (r : result unit) (w' : World) :
  reachable w ->
  String.eqb status "granted" = false ->
  step w (PermissionSettles i status) = Some (r, w') ->
  r = Ok tt /\
  location w' = location w /\
  routeCoordinates w' = routeCoordinates w /\
  map watching (effects w') = map watching (effects w) /\
  forall evs w'',
    run w' evs = Some w'' ->
    refusedAt i w'' /\
    forall newLocation fetch, step w'' (PositionUpdate i newLocation fetch) = None.
Proof.
  intros Hreach Hstatus Hstep.
  pose proof (reachable_consistent w Hreach) as Hinv.
  unfold step in Hstep. cbn in Hstep.
  destruct (nth_error (effects w) i) as [e |] eqn:He; [| discriminate].
  pose proof (proj1 (Forall_forall _ _) Hinv e (nth_error_In _ _ He)) as Hidle.
  unfold notYetWatching in Hidle.
  destruct (effectStage e) eqn:Hst; try discriminate.
  unfold permissionContinuation in Hstep. rewrite Hstatus, Hidle in Hstep.
  cbn in Hstep. injection Hstep as <- <-. cbn.
  assert (forall evs w'',
            run (mkWorld (location w) (selectedRoute w) (routeCoordinates w)
                   (console w ++ [ConsoleLog "Permission to access location was denied"])
                   (replace_nth i (mkEffect (closureRoute e) PermissionRefused false)
                      (effects w))) evs = Some w'' ->
            refusedAt i w'') as Hstays.
  { intros evs w'' Hrun. eapply run_refused; [| exact Hrun].
    exists (closureRoute e). cbn.
    now apply nth_error_replace_nth_same with e. }
  repeat split.
  - now apply map_watching_replace_nth with e.
  - now apply (Hstays evs).
  - intros newLocation fetch. apply refused_no_update. now apply (Hstays evs).
Qed.

Lemma bellRockSelected_reachable : reachable bellRockSelected.
Proof. exists [PressRoute 1]. reflexivity. Qed.

Lemma permission_denied_stops_session_witness :
  let refused :=
    mkWorld None (Some bellRockPathway) []
      [ConsoleLog "Permission to access location was denied"]
      [mkEffect bellRockPathway PermissionRefused false] in
  step bellRockSelected (PermissionSettles 0 "denied") = Some (Ok tt, refused) /\
  location refused = None /\
  routeCoordinates refused = [] /\
  map watching (effects refused) = [false] /\
  forall evs w'',
    run refused evs = Some w'' ->
    refusedAt 0 w'' /\
    forall newLocation fetch, step w'' (PositionUpdate 0 newLocation fetch) = None.
Proof.
  intros refused.
  split; [reflexivity |].
  apply (permission_denied_stops_session bellRockSelected 0 "denied" (Ok tt) refused).
  - exact bellRockSelected_reachable.
  - reflexivity.
  - reflexivity.
Defined.

(** ** Selection, back and the rendered line *)

Lemma trailhead_is_far : ~ calculateDistance trailhead bellRock < 5 / 100.
Proof.
  pose proof PI2_1 as Hpi.
  rewrite calculateDistance_meridian.
  - cbn [trailhead bellRock latitude]. lra.
  - reflexivity.
  - cbn [trailhead bellRock latitude]. lra.
Qed.

(** C2, as stated, fails: a trail is selected, one position update far from
    the destination sets a two-point path, and the back action then clears
    the selection while the path stays. *)
Lemma back_leaves_path_behind :
  exists w,
    run initialWorld rideThenBack = Some w /\
    selectedRoute w = None /\
    routeCoordinates w = straightLine trailhead bellRock /\
    routeCoordinates w <> [].
Proof.
  eexists. split; [| split; [| split]].
  - unfold rideThenBack, run, step. cbn.
    destruct (Rlt_dec _ _) as [Hnear | Hfar].
    + exfalso. exact (trailhead_is_far Hnear).
    + cbn. reflexivity.
  - reflexivity.
  - reflexivity.
  - discriminate.
Qed.

Lemma render_polyline (w : World) marker route pts :
  render w = MapScreen marker route (Some pts) ->
  selectedRoute w = Some route /\ pts = routeCoordinates w /\ pts <> [].
Proof.
  unfold render. intros Hr.
  destruct (selectedRoute w) as [route' |]; [| discriminate].
  destruct (routeCoordinates w) as [| c cs] eqn:Hcs; cbn in Hr; [discriminate |].
  injection Hr as _ -> <-. repeat split. discriminate.
Qed.

Lemma pressBack_keeps_path (w : World) (r : result unit) (w' : World) :
  step w PressBack = Some (r, w') ->
  selectedRoute w' = None /\ routeCoordinates w' = routeCoordinates w.
Proof.
  unfold step. cbn. intros Hstep.
  destruct (selectedRoute w); [| discriminate].
  destruct (nth_error (effects w) (List.length (effects w) - 1)) as [e |].
  - unfold cleanup, bind in Hstep. cbn in Hstep.
    destruct (effectStage e); injection Hstep as _ <-; now cbn.
  - injection Hstep as _ <-. now cbn.
Qed.

Lemma update_arrival_clears (w : World) i newLocation fetch r w' :
  step w (PositionUpdate i newLocation fetch) = Some (r, w') ->
  exists e,
    nth_error (effects w) i = Some e /\
    (calculateDistance
       (mkLocation (latitude (coords newLocation)) (longitude (coords newLocation)))
       (endLocation (closureRoute e)) < 5 / 100 ->
     routeCoordinates w' = []).
Proof.
  unfold step. cbn. intros Hstep.
  destruct (nth_error (effects w) i) as [e |]; [| discriminate].
  destruct (watching e); [| discriminate].
  exists e. split; [reflexivity |]. intros Hd.
  injection Hstep as Hw'.
  assert (w' = exec (watchCallback fetch (closureRoute e) newLocation) w) as ->
    by (unfold exec; now rewrite Hw').
  now apply watchCallback_arrived.
Qed.

(** C2, amended.  The route line is rendered only while a trail is selected
    and the path is non-empty, and an update that detects arrival ends with
    the path empty; the back action sets the selection to null and leaves
    the path as it was. *)
Theorem polyline_only_while_selected :
  (forall w marker route pts,
     render w = MapScreen marker route (Some pts) ->
     selectedRoute w = Some route /\ pts = routeCoordinates w /\ pts <> []) /\
  (forall w i newLocation fetch r w',
     step w (PositionUpdate i newLocation fetch) = Some (r, w') ->
     exists e,
       nth_error (effects w) i = Some e /\
       (calculateDistance
          (mkLocation (latitude (coords newLocation)) (longitude (coords newLocation)))
          (endLocation (closureRoute e)) < 5 / 100 ->
        routeCoordinates w' = [])) /\
  (forall w r w',
     step w PressBack = Some (r, w') ->
     selectedRoute w' = None /\ routeCoordinates w' = routeCoordinates w).
Proof.
  split; [exact render_polyline | split].
  - exact update_arrival_clears.
  - exact pressBack_keeps_path.
Qed.

Lemma riding_reachable : reachable riding.
Proof.
  exists [ PressRoute 1; PermissionSettles 0 "granted"; SubscriptionResolves 0;
           PositionUpdate 0 (mkLocationObject trailhead 0) networkDown ].
  unfold run, step. cbn.
  destruct (Rlt_dec _ _) as [Hnear | Hfar].
  - exfalso. exact (trailhead_is_far Hnear).
  - reflexivity.
Qed.

Lemma polyline_only_while_selected_witness :
  (render riding =
     MapScreen (Some trailhead) bellRockPathway (Some (straightLine trailhead bellRock)) /\
   selectedRoute riding = Some bellRockPathway) /\
  (exists w',
     step riding (PositionUpdate 0 (mkLocationObject nearBellRock 0) threePointService)
     = Some (Ok tt, w') /\ routeCoordinates w' = []) /\
  (exists w',
     step riding PressBack = Some (Ok tt, w') /\
     selectedRoute w' = None /\
     routeCoordinates w' = straightLine trailhead bellRock).
Proof.
  split; [| split].
  - split; [reflexivity |].
    apply (proj1 polyline_only_while_selected riding (Some trailhead) bellRockPathway
             (straightLine trailhead bellRock)).
    reflexivity.
  - destruct (watchCallback threePointService bellRockPathway
                (mkLocationObject nearBellRock 0) riding) as [r w'] eqn:Hrun.
    assert (r = Ok tt) as ->.
    { rewrite watchCallback_steps in Hrun. now injection Hrun as <- _. }
    exists w'. split.
    + unfold step. cbn [handler riding effects nth_error watching closureRoute].
      now rewrite Hrun.
    + destruct (proj1 (proj2 polyline_only_while_selected) riding 0%nat
                  (mkLocationObject nearBellRock 0) threePointService (Ok tt) w')
        as (e & He & Hclear).
      * unfold step. cbn [handler riding effects nth_error watching closureRoute].
        now rewrite Hrun.
      * injection He as <-. apply Hclear. exact nearBellRock_has_arrived.
  - eexists. split; [reflexivity |].
    apply (proj2 (proj2 polyline_only_while_selected) riding (Ok tt)).
    reflexivity.
Defined.

(** The [try] block does throw, for instance when the network is down; it
    is the [catch] clause that keeps the exception from the caller. *)
Example fetchRouteCoordinates_try_throws :
  fst (fetchRouteCoordinates_try networkDown trailhead bellRock initialWorld) =
  Throw (NetworkError "Network request failed").
Proof. reflexivity. Qed.

(** An uncaught [TypeError] in the [try] block: a first route without a
    geometry is also answered with the straight line. *)
Example route_without_geometry_falls_back :
  routeCoordinates
    (exec (fetchRouteCoordinates
             (fun _ => FetchResolves
                         (mkResponse 200
                            (JsonResolves (VObj [("routes", VArr [VObj []])]))))
             trailhead bellRock) initialWorld) = straightLine trailhead bellRock.
Proof. reflexivity. Qed.


(** * Further properties of the code *)

(** ** Geo math: the arc behind the distance *)







(** ** Route fetcher: the three ways it can end *)

(** The [try] block decides on the response alone: on any two worlds it
    either returns leaving each as it is, or returns having set the same
    path in each, or throws the same exception leaving each as it is. *)
Lemma fetchRouteCoordinates_try_uniform (fetch : Network) (start end_ : LocationState)
    (w1 w2 : World) :
  (fetchRouteCoordinates_try fetch start end_ w1 = (Ok tt, w1) /\
   fetchRouteCoordinates_try fetch start end_ w2 = (Ok tt, w2)) \/
  (exists cs,
     fetchRouteCoordinates_try fetch start end_ w1 = setRouteCoordinates cs w1 /\
     fetchRouteCoordinates_try fetch start end_ w2 = setRouteCoordinates cs w2) \/
  (exists e,
     fetchRouteCoordinates_try fetch start end_ w1 = (Throw e, w1) /\
     fetchRouteCoordinates_try fetch start end_ w2 = (Throw e, w2)).
Proof.
  unfold fetchRouteCoordinates_try.
  destruct (fetch (routeUrl start end_)) as [e | response];
    cbn [bind lift ret await_fetch]; [right; right; exists e; split; reflexivity |].
  unfold await_json.
  destruct (json response) as [e | data];
    cbn [bind lift ret]; [right; right; exists e; split; reflexivity |].
  destruct (get_field data "routes") as [routes | e];
    cbn [bind lift ret]; [| right; right; exists e; split; reflexivity].
  destruct (truthy routes) eqn:Ht; cbn [bind lift ret].
  - destruct (get_index routes 0) as [route0 | e] eqn:Hidx;
      cbn [bind lift ret]; [| right; right; exists e; split; reflexivity].
    destruct (truthy route0); cbn [bind lift ret]; [| left; split; reflexivity].
    rewrite ?Hidx; cbn [bind lift ret].
    destruct (get_field route0 "geometry") as [geometry | e];
      cbn [bind lift ret]; [| right; right; exists e; split; reflexivity].
    destruct (get_field geometry "coordinates") as [coordinates | e];
      cbn [bind lift ret]; [| right; right; exists e; split; reflexivity].
    destruct (array_map coordinates toRouteCoordinates) as [cs | e];
      cbn [bind lift ret];
      [right; left; exists cs; split; reflexivity
      | right; right; exists e; split; reflexivity].
  - rewrite ?Ht; cbn [bind lift ret]. left; split; reflexivity.
Qed.

(** [fetchRouteCoordinates] ends in one of three ways: nothing at all has
    changed; or only the path has changed; or the path is the straight line
    and exactly one error entry was added to the console.  The position,
    the selection and the effect instances are never touched. *)
Theorem fetchRouteCoordinates_outcomes
    (fetch : Network) (start end_ : LocationState) (w : World) :
  let w' := exec (fetchRouteCoordinates fetch start end_) w in
  w' = w \/
  (exists cs,
     w' = mkWorld (location w) (selectedRoute w) cs (console w) (effects w)) \/
  (exists error,
     w' = mkWorld (location w) (selectedRoute w) (straightLine start end_)
            (console w ++ [ConsoleError "Error fetching route:" error]) (effects w)).
Proof.
  cbv zeta. unfold exec, fetchRouteCoordinates, try_catch.
  destruct (fetchRouteCoordinates_try_uniform fetch start end_ w w)
    as [[H _] | [(cs & H & _) | (e & H & _)]]; rewrite H.
  - now left.
  - right; left. now exists cs.
  - right; right. now exists e.
Qed.

(** Fetching twice from a network that behaves the same gives the path of
    fetching once. *)
Theorem fetchRouteCoordinates_path_idempotent
    (fetch : Network) (start end_ : LocationState) (w : World) :
  routeCoordinates
    (exec (fetchRouteCoordinates fetch start end_)
       (exec (fetchRouteCoordinates fetch start end_) w)) =
  routeCoordinates (exec (fetchRouteCoordinates fetch start end_) w).
Proof.
  set (w1 := exec (fetchRouteCoordinates fetch start end_) w).
  unfold exec in w1 |- *. unfold fetchRouteCoordinates, try_catch in w1 |- *.
  destruct (fetchRouteCoordinates_try_uniform fetch start end_ w w1)
    as [[H H1] | [(cs & H & H1) | (e & H & H1)]];
    rewrite H1; unfold w1; rewrite H; reflexivity.
Qed.

(** The status of the response is never read: two responses with the same
    body outcome have the same effect, whatever their statuses. *)
Theorem fetchRouteCoordinates_ignores_status
    (fetch fetch' : Network) (start end_ : LocationState) (w : World)
    (response response' : Response) :
  fetch (routeUrl start end_) = FetchResolves response ->
  fetch' (routeUrl start end_) = FetchResolves response' ->
  json response = json response' ->
  fetchRouteCoordinates fetch start end_ w = fetchRouteCoordinates fetch' start end_ w.
Proof.
  intros Hf Hf' Hj.
  unfold fetchRouteCoordinates, try_catch, fetchRouteCoordinates_try.
  rewrite Hf, Hf'. unfold bind at 1 4. cbn [await_fetch ret].
  unfold bind at 1 3. unfold await_json. rewrite Hj. reflexivity.
Qed.

Lemma fetchRouteCoordinates_ignores_status_witness :
  fetchRouteCoordinates (fun _ => FetchResolves noRouteResponse)
    trailhead bellRock initialWorld =
  fetchRouteCoordinates (fun _ => FetchResolves noRouteResponseOk)
    trailhead bellRock initialWorld.
Proof.
  apply (fetchRouteCoordinates_ignores_status _ _ trailhead bellRock initialWorld
           noRouteResponse noRouteResponseOk); reflexivity.
Defined.

(** ** Route fetcher: geometries of arbitrary elements *)

Lemma map_elems_nullish (elems : list value) :
  existsb isNullish elems = true ->
  exists e, map_elems toRouteCoordinates elems = Throw e.
Proof.
  induction elems as [| c elems IH]; cbn; [discriminate |].
  intros H. apply orb_true_iff in H. destruct H as [Hc | Hrest].
  - destruct c; try discriminate; cbn; eauto.
  - destruct (toRouteCoordinates c) as [p | e]; [| eauto].
    destruct (IH Hrest) as [e He]. rewrite He. eauto.
Qed.

Lemma toRouteCoordinates_defined (c : value) :
  isNullish c = false ->
  exists lat lon,
    get_index c 1 = Ok lat /\ get_index c 0 = Ok lon /\
    toRouteCoordinates c = Ok (RouteCoordinates.make lat lon).
Proof.
  intros Hc. unfold toRouteCoordinates.
  destruct c; try discriminate; cbn [get_index]; eauto.
Qed.

Lemma map_elems_defined (elems : list value) :
  forallb (fun c => negb (isNullish c)) elems = true ->
  exists path,
    map_elems toRouteCoordinates elems = Ok path /\
    List.length path = List.length elems /\
    forall i c,
      nth_error elems i = Some c ->
      exists p,
        nth_error path i = Some p /\
        get_index c 1 = Ok (RouteCoordinates.latitude p) /\
        get_index c 0 = Ok (RouteCoordinates.longitude p).
Proof.
  induction elems as [| c elems IH]; cbn [forallb map_elems].
  - intros _. exists []. repeat split. intros [| i] c' H; discriminate.
  - intros H. apply andb_true_iff in H. destruct H as [Hc Hrest].
    apply negb_true_iff in Hc.
    destruct (toRouteCoordinates_defined c Hc) as (lat & lon & Hlat & Hlon & Hto).
    destruct (IH Hrest) as (path & Hpath & Hlen & Hnth).
    rewrite Hto, Hpath. exists (RouteCoordinates.make lat lon :: path).
    split; [reflexivity | split; [cbn; now rewrite Hlen |]].
    intros [| i] c' Hi; cbn in Hi.
    + injection Hi as <-. exists (RouteCoordinates.make lat lon). now cbn.
    + exact (Hnth i c' Hi).
Qed.

Lemma hasGeometry_try (fetch : Network) (start end_ : LocationState) (w : World)
    (response : Response) (data : value) (elems : list value) :
  fetch (routeUrl start end_) = FetchResolves response ->
  json response = JsonResolves data ->
  hasGeometry data elems ->
  fetchRouteCoordinates_try fetch start end_ w =
  match map_elems toRouteCoordinates elems with
  | Ok cs => setRouteCoordinates cs w
  | Throw e => (Throw e, w)
  end.
Proof.
  intros Hf Hj (route0 & rest & geometry & Hroutes & Hgeo & Hcoords).
  assert (truthy route0 = true) as Htruthy
    by exact (get_field_defined_truthy _ _ _ _ _ Hgeo Hcoords).
  unfold fetchRouteCoordinates_try.
  rewrite Hf. cbn [bind lift ret await_fetch]. unfold await_json. rewrite Hj.
  cbn [bind lift ret]. rewrite Hroutes. cbn [bind lift ret truthy get_index nth].
  rewrite Htruthy. cbn [bind lift ret get_index nth].
  rewrite Hgeo. cbn [bind lift ret]. rewrite Hcoords. cbn [bind lift ret array_map].
  destruct (map_elems toRouteCoordinates elems); reflexivity.
Qed.

(** A geometry is applied whole or not at all: if any element of
    [routes[0].geometry.coordinates] is [null], the path is the straight
    line from start to end, not the points before the [null]. *)
Theorem null_coordinate_falls_back
    (fetch : Network) (start end_ : LocationState) (w : World)
    (response : Response) (data : value) (elems : list value) :
  fetch (routeUrl start end_) = FetchResolves response ->
  json response = JsonResolves data ->
  hasGeometry data elems ->
  existsb isNullish elems = true ->
  routeCoordinates (exec (fetchRouteCoordinates fetch start end_) w) =
  straightLine start end_.
Proof.
  intros Hf Hj Hgeo Hnull.
  destruct (map_elems_nullish elems Hnull) as [e He].
  apply (fetchRouteCoordinates_on_throw fetch start end_ w e w).
  rewrite (hasGeometry_try fetch start end_ w response data elems Hf Hj Hgeo), He.
  reflexivity.
Qed.

Lemma null_coordinate_falls_back_witness :
  routeCoordinates
    (exec (fetchRouteCoordinates
             (fun _ => FetchResolves (mkResponse 200 (JsonResolves brokenGeometryBody)))
             trailhead bellRock) initialWorld) = straightLine trailhead bellRock.
Proof.
  apply (null_coordinate_falls_back _ trailhead bellRock initialWorld
           (mkResponse 200 (JsonResolves brokenGeometryBody)) brokenGeometryBody
           [osrmPair (- (1117901 / 10000), 348222 / 10000); VNull]).
  - reflexivity.
  - reflexivity.
  - eexists _, _, _. cbn. repeat split; reflexivity.
  - reflexivity.
Defined.

(** The elements of a geometry are not checked to be pairs of numbers: when
    none of them is [null], the path has one element per element of
    [routes[0].geometry.coordinates], in order, whose latitude and longitude
    are what indexing that element at 1 and at 0 gives (a third component is
    dropped, a missing one is [undefined]). *)
Theorem fetchRouteCoordinates_maps_any_elements
    (fetch : Network) (start end_ : LocationState) (w : World)
    (response : Response) (data : value) (elems : list value) :
  fetch (routeUrl start end_) = FetchResolves response ->
  json response = JsonResolves data ->
  hasGeometry data elems ->
  forallb (fun c => negb (isNullish c)) elems = true ->
  let path := routeCoordinates (exec (fetchRouteCoordinates fetch start end_) w) in
  List.length path = List.length elems /\
  forall i c,
    nth_error elems i = Some c ->
    exists p,
      nth_error path i = Some p /\
      get_index c 1 = Ok (RouteCoordinates.latitude p) /\
      get_index c 0 = Ok (RouteCoordinates.longitude p).
Proof.
  intros Hf Hj Hgeo Hdef.
  destruct (map_elems_defined elems Hdef) as (cs & Hcs & Hlen & Hnth).
  assert (routeCoordinates (exec (fetchRouteCoordinates fetch start end_) w) = cs) as Hpath.
  { unfold exec, fetchRouteCoordinates, try_catch.
    rewrite (hasGeometry_try fetch start end_ w response data elems Hf Hj Hgeo), Hcs.
    reflexivity. }
  cbv zeta. rewrite Hpath. split; assumption.
Qed.

Lemma fetchRouteCoordinates_maps_any_elements_witness :
  routeCoordinates
    (exec (fetchRouteCoordinates
             (fun _ => FetchResolves (mkResponse 200 (JsonResolves untypedGeometryBody)))
             trailhead bellRock) initialWorld) =
  [ RouteCoordinates.make (VNum (348222 / 10000)) (VNum (- (1117901 / 10000)));
    RouteCoordinates.make (VStr "b") (VStr "a");
    RouteCoordinates.make VUndefined VUndefined ] /\
  List.length
    (routeCoordinates
       (exec (fetchRouteCoordinates
                (fun _ => FetchResolves (mkResponse 200 (JsonResolves untypedGeometryBody)))
                trailhead bellRock) initialWorld)) = 3%nat.
Proof.
  split; [reflexivity |].
  apply (fetchRouteCoordinates_maps_any_elements _ trailhead bellRock initialWorld
           (mkResponse 200 (JsonResolves untypedGeometryBody)) untypedGeometryBody
           [VArr [VNum (- (1117901 / 10000)); VNum (348222 / 10000); VNum 1320];
            VStr "ab"; VNum 7]).
  - reflexivity.
  - reflexivity.
  - eexists _, _, _. cbn. repeat split; reflexivity.
  - reflexivity.
Defined.

(** ** Position callback: what an update can and cannot do *)

Lemma watchCallback_returns_and_keeps_session_aux
    (fetch : Network) (route : Route) (newLocation : LocationObject) (w : World) :
  fst (watchCallback fetch route newLocation w) = Ok tt /\
  selectedRoute (exec (watchCallback fetch route newLocation) w) = selectedRoute w /\
  location (exec (watchCallback fetch route newLocation) w) =
  Some (mkLocation (latitude (coords newLocation)) (longitude (coords newLocation))).
Proof.
  split; [now rewrite watchCallback_steps |].
  split; [| apply watchCallback_location].
  unfold exec. rewrite watchCallback_steps. cbn [snd].
  set (p := mkLocation _ _).
  destruct (pathOnly_fetchRouteCoordinates fetch p (endLocation route)
              (exec (setLocation p) w)) as (_ & Hsel & _).
  fold (exec (fetchRouteCoordinates fetch p (endLocation route))
          (exec (setLocation p) w)) in Hsel.
  set (fetched := exec (fetchRouteCoordinates fetch p (endLocation route)) _) in *.
  destruct (Rlt_dec _ _); [change (selectedRoute fetched = selectedRoute w) |]; exact Hsel.
Qed.

(** The callback never throws, and never changes the selection or the
    effect instances, whatever the network does. *)
Theorem watchCallback_returns_and_keeps_session
    (fetch : Network) (route : Route) (newLocation : LocationObject) (w : World) :
  fst (watchCallback fetch route newLocation w) = Ok tt /\
  selectedRoute (exec (watchCallback fetch route newLocation) w) = selectedRoute w /\
  effects (exec (watchCallback fetch route newLocation) w) = effects w.
Proof.
  destruct (watchCallback_returns_and_keeps_session_aux fetch route newLocation w)
    as (Hr & Hsel & _).
  repeat split; try assumption. apply watchCallback_effects.
Qed.



(** Arrival does not latch: whatever the path was before (empty after an
    arrival, say), an update at 0.05 km or more that is answered with a
    well-formed route sets the path to that route. *)
Theorem update_with_route_sets_path_again
    (fetch : Network) (route : Route) (newLocation : LocationObject) (w : World)
    (response : Response) (data : value) (pairs : list (R * R)) :
  let currentPosition :=
    mkLocation (latitude (coords newLocation)) (longitude (coords newLocation)) in
  ~ calculateDistance currentPosition (endLocation route) < 5 / 100 ->
  fetch (routeUrl currentPosition (endLocation route)) = FetchResolves response ->
  json response = JsonResolves data ->
  wellFormedResponse data pairs ->
  routeCoordinates (exec (watchCallback fetch route newLocation) w) =
  map ofOsrmPair pairs.
Proof.
  intros currentPosition Hfar Hf Hj Hwf.
  rewrite watchCallback_not_arrived by exact Hfar.
  now apply (well_formed_sets_path fetch _ _ _ response data pairs).
Qed.

Lemma update_with_route_sets_path_again_witness :
  ~ calculateDistance trailhead bellRock < 5 / 100 /\
  routeCoordinates
    (exec (watchCallback threePointService bellRockPathway (mkLocationObject trailhead 0))
       (exec (watchCallback threePointService bellRockPathway
                (mkLocationObject nearBellRock 0)) initialWorld)) =
  map ofOsrmPair threePoints.
Proof.
  split; [exact trailhead_is_far |].
  apply (update_with_route_sets_path_again threePointService bellRockPathway
           (mkLocationObject trailhead 0) _
           (mkResponse 200 (JsonResolves threePointBody)) threePointBody threePoints).
  - exact trailhead_is_far.
  - reflexivity.
  - reflexivity.
  - eexists _, _, _. cbn. repeat split; reflexivity.
Defined.

(** ** Event loop: what the handlers keep *)

Lemma length_replace_nth {A} (l : list A) (i : nat) (a : A) :
  List.length (replace_nth i a l) = List.length l.
Proof.
  revert i. induction l as [| x l IH]; intros [| i]; cbn; auto.
Qed.

Lemma run_app (w : World) (evs1 evs2 : list event) :
  run w (evs1 ++ evs2) =
  match run w evs1 with
  | Some w1 => run w1 evs2
  | None => None
  end.
Proof.
  revert w. induction evs1 as [| ev evs1 IH]; intros w; cbn; [reflexivity |].
  destruct (step w ev) as [[r w1] |]; [apply IH | reflexivity].
Qed.

(** What one step does to the three state cells, event by event. *)
Lemma step_cells (w : World) (ev : event) (r : result unit) (w' : World) :
  step w ev = Some (r, w') ->
  r = Ok tt /\
  match ev with
  | PressRoute k =>
      selectedRoute w = None /\ nth_error ROUTES k = selectedRoute w' /\
      selectedRoute w' <> None /\
      location w' = location w /\ routeCoordinates w' = routeCoordinates w
  | PressBack =>
      selectedRoute w <> None /\ selectedRoute w' = None /\
      location w' = location w /\ routeCoordinates w' = routeCoordinates w
  | PositionUpdate _ newLocation _ =>
      selectedRoute w' = selectedRoute w /\
      location w' = Some (mkLocation (latitude (coords newLocation))
                                     (longitude (coords newLocation)))
  | PermissionSettles _ _ | SubscriptionResolves _ =>
      selectedRoute w' = selectedRoute w /\
      location w' = location w /\ routeCoordinates w' = routeCoordinates w
  end.
Proof.
  unfold step. intros Hstep.
  destruct ev as [k | i status | i | i newLocation fetch |]; cbn in Hstep.
  - destruct (selectedRoute w) eqn:Hsel; [discriminate |].
    destruct (nth_error ROUTES k) as [route |]; [| discriminate].
    injection Hstep as <- <-. cbn. repeat split. discriminate.
  - destruct (nth_error (effects w) i) as [e |]; [| discriminate].
    destruct (effectStage e); try discriminate.
    unfold permissionContinuation in Hstep.
    destruct (negb (String.eqb status "granted"));
      injection Hstep as <- <-; cbn; repeat split.
  - destruct (nth_error (effects w) i) as [e |]; [| discriminate].
    destruct (effectStage e); try discriminate.
    injection Hstep as <- <-. cbn. repeat split.
  - destruct (nth_error (effects w) i) as [e |]; [| discriminate].
    destruct (watching e); [| discriminate].
    injection Hstep as Hrun.
    destruct (watchCallback_returns_and_keeps_session_aux fetch (closureRoute e)
                newLocation w) as (Hr & Hsel & Hloc).
    rewrite Hrun in Hr. unfold exec in Hsel, Hloc. rewrite Hrun in Hsel, Hloc.
    cbn in Hr, Hsel, Hloc. repeat split; assumption.
  - destruct (selectedRoute w) eqn:Hsel; [| discriminate].
    destruct (nth_error (effects w) (List.length (effects w) - 1)) as [e |].
    + unfold cleanup, bind in Hstep. cbn in Hstep.
      destruct (effectStage e); injection Hstep as <- <-; cbn; repeat split;
        discriminate.
    + injection Hstep as <- <-. cbn. repeat split. discriminate.
Qed.

(** The selection changes only through the two buttons: a route button
    takes it from null to that route of the catalogue, the back button
    takes it from a route to null, and no permission result, subscription
    or position update ever changes it (in particular, arrival does not
    deselect the trail). *)
Theorem selection_changes_only_by_buttons
    (w : World) (ev : event) (r : result unit) (w' : World) :
  step w ev = Some (r, w') ->
  match ev with
  | PressRoute k =>
      selectedRoute w = None /\ selectedRoute w' = nth_error ROUTES k /\
      selectedRoute w' <> None
  | PressBack => selectedRoute w <> None /\ selectedRoute w' = None
  | _ => selectedRoute w' = selectedRoute w
  end.
Proof.
  intros Hstep. destruct (step_cells w ev r w' Hstep) as [_ H].
  destruct ev; intuition.
Qed.

Lemma selection_changes_only_by_buttons_witness :
  exists w',
    step riding (PositionUpdate 0 (mkLocationObject nearBellRock 0) threePointService)
    = Some (Ok tt, w') /\
    selectedRoute w' = Some bellRockPathway.
Proof.
  destruct (step riding (PositionUpdate 0 (mkLocationObject nearBellRock 0)
                           threePointService)) as [[r w'] |] eqn:Hstep.
  - exists w'. split.
    + now rewrite (proj1 (step_cells riding _ r w' Hstep)).
    + exact (selection_changes_only_by_buttons riding _ r w' Hstep).
  - discriminate Hstep.
Defined.

Lemma location_is_last_update_aux (evs : list event) (w w' : World) :
  run w evs = Some w' -> location w' = lastPosition (location w) evs.
Proof.
  revert w. induction evs as [| ev evs IH]; intros w Hrun; cbn in Hrun.
  - now injection Hrun as <-.
  - destruct (step w ev) as [[r w1] |] eqn:Hstep; [| discriminate].
    rewrite (IH w1 Hrun).
    destruct (step_cells w ev r w1 Hstep) as [_ H].
    destruct ev; cbn [lastPosition]; f_equal; intuition.
Qed.

(** The tracked position is the position of the last update handled, and
    nothing else ever writes it: selecting a trail, the permission result
    and the back action leave it as it was, so it survives deselection. *)
Theorem location_is_last_update (evs : list event) (w w' : World) :
  run w evs = Some w' -> location w' = lastPosition (location w) evs.
Proof.
  exact (location_is_last_update_aux evs w w').
Qed.

Lemma ride_run : run initialWorld ride = Some riding.
Proof.
  unfold ride, run, step. cbn.
  destruct (Rlt_dec _ _) as [Hnear | Hfar].
  - exfalso. exact (trailhead_is_far Hnear).
  - reflexivity.
Qed.

Lemma location_is_last_update_witness :
  run initialWorld ride = Some riding /\
  location riding = Some trailhead /\
  forall w', run riding [PressBack; PressRoute 0] = Some w' ->
             location w' = Some trailhead.
Proof.
  split; [exact ride_run | split].
  - exact (location_is_last_update ride initialWorld riding ride_run).
  - intros w' Hrun.
    exact (location_is_last_update [PressBack; PressRoute 0] riding w' Hrun).
Defined.

(** In every reachable state a non-empty path comes with a known position:
    the path is only ever written by an update, after the position. *)
Theorem path_implies_position (w : World) :
  reachable w -> routeCoordinates w <> [] -> location w <> None.
Proof.
  intros [evs Hrun].
  assert (forall evs w0 w1,
            (routeCoordinates w0 <> [] -> location w0 <> None) ->
            run w0 evs = Some w1 ->
            routeCoordinates w1 <> [] -> location w1 <> None) as Hgen.
  { clear. induction evs as [| ev evs IH]; intros w0 w1 Hinv Hrun0; cbn in Hrun0.
    - now injection Hrun0 as <-.
    - destruct (step w0 ev) as [[r w2] |] eqn:Hstep; [| discriminate].
      apply (IH w2 w1); [| assumption].
      destruct (step_cells w0 ev r w2 Hstep) as [_ H].
      destruct ev as [k | i status | i | i newLocation fetch |].
      + destruct H as (_ & _ & _ & Hl & Hp). rewrite Hl, Hp. exact Hinv.
      + destruct H as (_ & Hl & Hp). rewrite Hl, Hp. exact Hinv.
      + destruct H as (_ & Hl & Hp). rewrite Hl, Hp. exact Hinv.
      + destruct H as (_ & Hl). rewrite Hl. discriminate.
      + destruct H as (_ & _ & Hl & Hp). rewrite Hl, Hp. exact Hinv. }
  apply (Hgen evs initialWorld w); [| assumption].
  intros H. now contradiction H.
Qed.

Lemma path_implies_position_witness :
  reachable riding /\ routeCoordinates riding <> [] /\ location riding <> None.
Proof.
  assert (routeCoordinates riding <> []) as Hpath by discriminate.
  split; [exact riding_reachable | split; [exact Hpath |]].
  exact (path_implies_position riding riding_reachable Hpath).
Defined.

(** The camera follows the tracked position.  After any run from the
    start, the recentre button animates to the position of the last update
    with spans of 0.01 degrees over one second, and does nothing before the
    first update or while the map is not mounted; the map opens centred on
    that position, or on the default centre before the first update. *)
Theorem camera_follows_last_update (evs : list event) (w : World) :
  run initialWorld evs = Some w ->
  centerOnLocation false w = None /\
  centerOnLocation true w =
  match lastPosition None evs with
  | Some p => Some (mkRegion (latitude p) (longitude p) (1 / 100) (1 / 100), 1000)
  | None => None
  end /\
  initialRegion w =
  match lastPosition None evs with
  | Some p => mkRegion (latitude p) (longitude p) (922 / 10000) (421 / 10000)
  | None => mkRegion (348697 / 10000) (- (1117609 / 10000)) (922 / 10000) (421 / 10000)
  end.
Proof.
  intros Hrun.
  pose proof (location_is_last_update_aux evs initialWorld w Hrun) as Hloc.
  cbn [initialWorld location] in Hloc.
  unfold centerOnLocation, initialRegion. rewrite Hloc.
  destruct (lastPosition None evs); repeat split.
Qed.

Lemma camera_follows_last_update_witness :
  centerOnLocation true riding =
  Some (mkRegion (347932 / 10000) (- (1117761 / 10000)) (1 / 100) (1 / 100), 1000) /\
  centerOnLocation true bellRockSelected = None.
Proof.
  split.
  - exact (proj1 (proj2 (camera_follows_last_update ride riding ride_run))).
  - assert (run initialWorld [PressRoute 1] = Some bellRockSelected) as Hrun
      by reflexivity.
    exact (proj1 (proj2 (camera_follows_last_update [PressRoute 1] bellRockSelected Hrun))).
Defined.

(** ** Event loop: sessions and their subscriptions *)

Lemma nth_error_replace_nth (l : list Effect) (i j : nat) (e x : Effect) :
  nth_error l i = Some x ->
  nth_error (replace_nth i e l) j = if Nat.eqb i j then Some e else nth_error l j.
Proof.
  intros Hi. destruct (Nat.eqb_spec i j) as [<- | Hne].
  - now apply nth_error_replace_nth_same with x.
  - now apply nth_error_replace_nth_other.
Qed.

Lemma step_selectionTracked (w : World) (ev : event) (r : result unit) (w' : World) :
  selectionTracked w -> step w ev = Some (r, w') -> selectionTracked w'.
Proof.
  unfold selectionTracked, step. intros Hinv Hstep route.
  destruct ev as [k | i status | i | i newLocation fetch |]; cbn in Hstep.
  - destruct (selectedRoute w); [discriminate |].
    destruct (nth_error ROUTES k) as [route' |] eqn:Hk; [| discriminate].
    injection Hstep as _ <-. cbn. intros [= <-].
    split; [exact (nth_error_In _ _ Hk) |].
    exists (mkEffect route' AwaitingPermission false).
    rewrite length_app. cbn.
    replace (List.length (effects w) + 1 - 1)%nat with (List.length (effects w)) by lia.
    rewrite nth_error_app2, Nat.sub_diag by lia. now cbn.
  - destruct (nth_error (effects w) i) as [e |] eqn:He; [| discriminate].
    destruct (effectStage e); try discriminate.
    unfold permissionContinuation in Hstep.
    destruct (negb (String.eqb status "granted"));
      injection Hstep as _ <-; cbn; intros Hsel;
      destruct (Hinv route Hsel) as (Hin & e0 & He0 & Hroute);
      (split; [exact Hin |]);
      rewrite length_replace_nth, (nth_error_replace_nth _ _ _ _ e He);
      (destruct (Nat.eqb_spec i (List.length (effects w) - 1)) as [-> | _];
       [eexists; split; [reflexivity | cbn; congruence] | now exists e0]).
  - destruct (nth_error (effects w) i) as [e |] eqn:He; [| discriminate].
    destruct (effectStage e); try discriminate.
    injection Hstep as _ <-; cbn; intros Hsel;
      destruct (Hinv route Hsel) as (Hin & e0 & He0 & Hroute);
      (split; [exact Hin |]);
      rewrite length_replace_nth, (nth_error_replace_nth _ _ _ _ e He);
      (destruct (Nat.eqb_spec i (List.length (effects w) - 1)) as [-> | _];
       [eexists; split; [reflexivity | cbn; congruence] | now exists e0]).
  - destruct (nth_error (effects w) i) as [e |] eqn:He; [| discriminate].
    destruct (watching e); [| discriminate].
    injection Hstep as Hrun.
    destruct (watchCallback_returns_and_keeps_session_aux fetch (closureRoute e)
                newLocation w) as (_ & Hsel & _).
    pose proof (watchCallback_effects fetch (closureRoute e) newLocation w) as Heff.
    unfold exec in Hsel, Heff. rewrite Hrun in Hsel, Heff. cbn in Hsel, Heff.
    rewrite Hsel, Heff. apply Hinv.
  - destruct (selectedRoute w); [| discriminate].
    destruct (nth_error (effects w) (List.length (effects w) - 1)) as [e |].
    + unfold cleanup, bind in Hstep. cbn in Hstep.
      destruct (effectStage e); injection Hstep as _ <-; cbn; discriminate.
    + injection Hstep as _ <-. cbn. discriminate.
Qed.

Lemma reachable_selectionTracked (w : World) : reachable w -> selectionTracked w.
Proof.
  intros [evs Hrun].
  assert (forall evs w0 w1, selectionTracked w0 -> run w0 evs = Some w1 ->
                            selectionTracked w1) as Hgen.
  { clear. induction evs as [| ev evs IH]; intros w0 w1 Hinv Hrun0; cbn in Hrun0.
    - now injection Hrun0 as <-.
    - destruct (step w0 ev) as [[r w2] |] eqn:Hstep; [| discriminate].
      apply (IH w2 w1); [| assumption].
      exact (step_selectionTracked w0 ev r w2 Hinv Hstep). }
  apply (Hgen evs initialWorld w); [| assumption].
  intros route H. discriminate H.
Qed.

(** In every reachable state the screen is either the list of the four
    catalogue routes, with no selection, or a map whose destination marker
    is a catalogue route, whose user marker is the tracked position, and
    whose destination is the one the current effect instance measures
    arrival against. *)
Theorem screen_shows_catalogue_or_tracked_route (w : World) :
  reachable w ->
  match render w with
  | RouteList buttons => buttons = ROUTES /\ selectedRoute w = None
  | MapScreen userMarker destination _ =>
      In destination ROUTES /\
      userMarker = location w /\
      exists e,
        nth_error (effects w) (List.length (effects w) - 1) = Some e /\
        closureRoute e = destination
  end.
Proof.
  intros Hreach. pose proof (reachable_selectionTracked w Hreach) as Hinv.
  unfold render. destruct (selectedRoute w) as [route |] eqn:Hsel.
  - destruct (Hinv route Hsel) as (Hin & e & He & Hroute).
    split; [exact Hin | split; [reflexivity | now exists e]].
  - now split.
Qed.

Lemma screen_shows_catalogue_or_tracked_route_witness :
  reachable riding /\
  In bellRockPathway ROUTES /\
  exists e, nth_error (effects riding) 0 = Some e /\ closureRoute e = bellRockPathway.
Proof.
  split; [exact riding_reachable |].
  pose proof (screen_shows_catalogue_or_tracked_route riding riding_reachable) as H.
  cbn in H. destruct H as (Hin & _ & He). split; assumption.
Defined.

Lemma step_abandoned (i : nat) (w : World) (ev : event) (r : result unit) (w' : World) :
  abandonedWatching i w -> step w ev = Some (r, w') -> abandonedWatching i w'.
Proof.
  unfold abandonedWatching, step. intros [(e0 & Hi & Hw) Hold] Hstep.
  assert (i < List.length (effects w))%nat as Hlen
    by (apply nth_error_Some; congruence).
  destruct ev as [k | j status | j | j newLocation fetch |]; cbn in Hstep.
  - destruct (selectedRoute w); [discriminate |].
    destruct (nth_error ROUTES k) as [route' |]; [| discriminate].
    injection Hstep as _ <-. cbn. split.
    + exists e0. split; [| assumption]. now rewrite nth_error_app1.
    + right. rewrite length_app. cbn. lia.
  - destruct (nth_error (effects w) j) as [e |] eqn:He; [| discriminate].
    destruct (effectStage e); try discriminate.
    unfold permissionContinuation in Hstep.
    destruct (negb (String.eqb status "granted"));
      injection Hstep as _ <-; cbn; rewrite length_replace_nth;
      (split; [| assumption]);
      rewrite (nth_error_replace_nth _ _ _ _ e He);
      (destruct (Nat.eqb_spec j i) as [-> | _];
       [eexists; split; [reflexivity | cbn; congruence] | now exists e0]).
  - destruct (nth_error (effects w) j) as [e |] eqn:He; [| discriminate].
    destruct (effectStage e); try discriminate.
    injection Hstep as _ <-; cbn; rewrite length_replace_nth;
      (split; [| assumption]);
      rewrite (nth_error_replace_nth _ _ _ _ e He);
      (destruct (Nat.eqb_spec j i) as [-> | _];
       [eexists; split; [reflexivity | cbn; congruence] | now exists e0]).
  - destruct (nth_error (effects w) j) as [e |] eqn:He; [| discriminate].
    destruct (watching e); [| discriminate].
    injection Hstep as Hrun.
    destruct (watchCallback_returns_and_keeps_session_aux fetch (closureRoute e)
                newLocation w) as (_ & Hsel & _).
    pose proof (watchCallback_effects fetch (closureRoute e) newLocation w) as Heff.
    unfold exec in Hsel, Heff. rewrite Hrun in Hsel, Heff. cbn in Hsel, Heff.
    rewrite Hsel, Heff. split; [now exists e0 | assumption].
  - destruct (selectedRoute w) eqn:Hsel; [| discriminate].
    destruct Hold as [Hnone | Hnotlast]; [discriminate |].
    destruct (nth_error (effects w) (List.length (effects w) - 1)) as [e |] eqn:He.
    + unfold cleanup, bind in Hstep. cbn in Hstep.
      destruct (effectStage e); injection Hstep as _ <-; cbn;
        try (split; [now exists e0 | now left]).
      split; [| now left].
      rewrite (nth_error_replace_nth _ _ _ _ e He).
      destruct (Nat.eqb_spec (List.length (effects w) - 1) i) as [Heq | _]; [lia |].
      now exists e0.
    + injection Hstep as _ <-. cbn. split; [now exists e0 | now left].
Qed.

Lemma run_abandoned (i : nat) (evs : list event) (w w' : World) :
  abandonedWatching i w -> run w evs = Some w' -> abandonedWatching i w'.
Proof.
  revert w. induction evs as [| ev evs IH]; intros w Hinv Hrun; cbn in Hrun.
  - now injection Hrun as <-.
  - destruct (step w ev) as [[r w1] |] eqn:Hstep; [| discriminate].
    apply (IH w1); [| assumption].
    exact (step_abandoned i w ev r w1 Hinv Hstep).
Qed.

(** The cleanup removes the subscription only if [locationSubscription] is
    already assigned.  If the back button is pressed while the current
    effect instance is live but its [watchPositionAsync] promise has not
    resolved, the subscription is never removed: in every later state it is
    still live and a position update for it is still handled. *)
Theorem back_before_subscription_resolves_leaks
    (w : World) (e : Effect) (r : result unit) (w' : World) :
  let i := (List.length (effects w) - 1)%nat in
  nth_error (effects w) i = Some e ->
  effectStage e = AwaitingSubscription ->
  watching e = true ->
  step w PressBack = Some (r, w') ->
  forall evs w'',
    run w' evs = Some w'' ->
    (exists e'', nth_error (effects w'') i = Some e'' /\ watching e'' = true) /\
    forall newLocation fetch, step w'' (PositionUpdate i newLocation fetch) <> None.
Proof.
  intros i Hi Hstage Hwatch Hstep evs w'' Hrun.
  assert (abandonedWatching i w') as Hab.
  { unfold step in Hstep. cbn in Hstep.
    destruct (selectedRoute w); [| discriminate].
    fold i in Hstep. rewrite Hi in Hstep.
    unfold cleanup, bind in Hstep. rewrite Hstage in Hstep. cbn in Hstep.
    injection Hstep as _ <-. cbn. split; [now exists e | now left]. }
  destruct (run_abandoned i evs w' w'' Hab Hrun) as [(e'' & He'' & Hw'') _].
  split; [now exists e'' |].
  intros newLocation fetch. unfold step. cbn. rewrite He'', Hw''. discriminate.
Qed.

Lemma back_before_subscription_resolves_leaks_witness :
  let granted :=
    mkWorld None (Some bellRockPathway) [] []
      [mkEffect bellRockPathway AwaitingSubscription true] in
  let left :=
    mkWorld None None [] [] [mkEffect bellRockPathway AwaitingSubscription true] in
  run initialWorld [PressRoute 1; PermissionSettles 0 "granted"] = Some granted /\
  step granted PressBack = Some (Ok tt, left) /\
  forall evs w'',
    run left evs = Some w'' ->
    (exists e'', nth_error (effects w'') 0 = Some e'' /\ watching e'' = true) /\
    forall newLocation fetch, step w'' (PositionUpdate 0 newLocation fetch) <> None.
Proof.
  intros granted left.
  split; [reflexivity | split; [reflexivity |]].
  apply (back_before_subscription_resolves_leaks granted
           (mkEffect bellRockPathway AwaitingSubscription true) (Ok tt) left);
    reflexivity.
Defined.

Lemma step_released (i : nat) (w : World) (ev : event) (r : result unit) (w' : World) :
  releasedAt i w -> step w ev = Some (r, w') -> releasedAt i w'.
Proof.
  unfold releasedAt, step. intros [route Hi] Hstep. exists route.
  destruct ev as [k | j status | j | j newLocation fetch |]; cbn in Hstep.
  - destruct (selectedRoute w); [discriminate |].
    destruct (nth_error ROUTES k) as [route' |]; [| discriminate].
    injection Hstep as _ <-. cbn.
    rewrite nth_error_app1; [assumption |].
    apply nth_error_Some. congruence.
  - destruct (nth_error (effects w) j) as [e |] eqn:He; [| discriminate].
    destruct (effectStage e) eqn:Hst; try discriminate.
    assert (j <> i) as Hji.
    { intros ->. rewrite Hi in He. injection He as <-. discriminate. }
    unfold permissionContinuation in Hstep.
    destruct (negb (String.eqb status "granted"));
      injection Hstep as _ <-; cbn;
      now rewrite nth_error_replace_nth_other.
  - destruct (nth_error (effects w) j) as [e |] eqn:He; [| discriminate].
    destruct (effectStage e) eqn:Hst; try discriminate.
    assert (j <> i) as Hji.
    { intros ->. rewrite Hi in He. injection He as <-. discriminate. }
    injection Hstep as _ <-. cbn.
    now rewrite nth_error_replace_nth_other.
  - destruct (nth_error (effects w) j) as [e |] eqn:He; [| discriminate].
    destruct (watching e); [| discriminate].
    injection Hstep as Hw'.
    assert (w' = exec (watchCallback fetch (closureRoute e) newLocation) w) as ->
      by (unfold exec; now rewrite Hw').
    now rewrite watchCallback_effects.
  - destruct (selectedRoute w); [| discriminate].
    destruct (nth_error (effects w) (List.length (effects w) - 1)) as [e |] eqn:He.
    + unfold cleanup, bind in Hstep. cbn in Hstep.
      destruct (effectStage e) eqn:Hst; injection Hstep as _ <-; cbn;
        try assumption.
      rewrite (nth_error_replace_nth _ _ _ _ e He).
      destruct (Nat.eqb_spec (List.length (effects w) - 1) i) as [Heq | _];
        [| assumption].
      rewrite Heq, Hi in He. injection He as <-. reflexivity.
    + injection Hstep as _ <-. cbn. assumption.
Qed.

Lemma run_released (i : nat) (evs : list event) (w w' : World) :
  releasedAt i w -> run w evs = Some w' -> releasedAt i w'.
Proof.
  revert w. induction evs as [| ev evs IH]; intros w Hinv Hrun; cbn in Hrun.
  - now injection Hrun as <-.
  - destruct (step w ev) as [[r w1] |] eqn:Hstep; [| discriminate].
    apply (IH w1); [| assumption].
    exact (step_released i w ev r w1 Hinv Hstep).
Qed.

(** When the back button is pressed after [locationSubscription] has been
    assigned, the subscription is removed, and it stays removed: no later
    event revives it and no position update is handled for it again. *)
Theorem back_after_subscription_releases_for_good
    (w : World) (e : Effect) (r : result unit) (w' : World) :
  let i := (List.length (effects w) - 1)%nat in
  nth_error (effects w) i = Some e ->
  effectStage e = Subscribed ->
  step w PressBack = Some (r, w') ->
  forall evs w'',
    run w' evs = Some w'' ->
    releasedAt i w'' /\
    forall newLocation fetch, step w'' (PositionUpdate i newLocation fetch) = None.
Proof.
  intros i Hi Hstage Hstep evs w'' Hrun.
  assert (releasedAt i w') as Hrel.
  { unfold step in Hstep. cbn in Hstep.
    destruct (selectedRoute w); [| discriminate].
    fold i in Hstep. rewrite Hi in Hstep.
    unfold cleanup, bind in Hstep. rewrite Hstage in Hstep. cbn in Hstep.
    injection Hstep as _ <-. cbn. exists (closureRoute e).
    now apply nth_error_replace_nth_same with e. }
  pose proof (run_released i evs w' w'' Hrel Hrun) as [route Hroute].
  split; [now exists route |].
  intros newLocation fetch. unfold step. cbn. rewrite Hroute. reflexivity.
Qed.

Lemma back_after_subscription_releases_for_good_witness :
  exists w',
    step riding PressBack = Some (Ok tt, w') /\
    forall evs w'',
      run w' evs = Some w'' ->
      releasedAt 0 w'' /\
      forall newLocation fetch, step w'' (PositionUpdate 0 newLocation fetch) = None.
Proof.
  eexists. split; [reflexivity |].
  apply (back_after_subscription_releases_for_good riding
           (mkEffect bellRockPathway Subscribed true) (Ok tt)); reflexivity.
Defined.

Lemma step_watching_origin (w : World) (ev : event) (r : result unit) (w' : World)
    (i : nat) (e : Effect) :
  step w ev = Some (r, w') ->
  nth_error (effects w') i = Some e ->
  watching e = true ->
  (exists e0, nth_error (effects w) i = Some e0 /\ watching e0 = true) \/
  ev = PermissionSettles i "granted".
Proof.
  unfold step. intros Hstep Hi Hw.
  destruct ev as [k | j status | j | j newLocation fetch |]; cbn in Hstep.
  - destruct (selectedRoute w); [discriminate |].
    destruct (nth_error ROUTES k) as [route' |]; [| discriminate].
    injection Hstep as _ <-. cbn in Hi. left.
    destruct (Nat.lt_ge_cases i (List.length (effects w))) as [Hlt | Hge].
    + rewrite nth_error_app1 in Hi by assumption. now exists e.
    + rewrite nth_error_app2 in Hi by assumption.
      destruct (i - List.length (effects w))%nat as [| n]; cbn in Hi.
      * injection Hi as <-. discriminate Hw.
      * destruct n; discriminate Hi.
  - destruct (nth_error (effects w) j) as [e1 |] eqn:He; [| discriminate].
    destruct (effectStage e1); try discriminate.
    unfold permissionContinuation in Hstep.
    destruct (String.eqb status "granted") eqn:Hstatus; cbn in Hstep;
      injection Hstep as _ <-; cbn in Hi;
      rewrite (nth_error_replace_nth _ _ _ _ e1 He) in Hi;
      destruct (Nat.eqb_spec j i) as [-> | _].
    + right. apply String.eqb_eq in Hstatus. now subst status.
    + left. now exists e.
    + injection Hi as <-. cbn in Hw. left. now exists e1.
    + left. now exists e.
  - destruct (nth_error (effects w) j) as [e1 |] eqn:He; [| discriminate].
    destruct (effectStage e1); try discriminate.
    injection Hstep as _ <-. cbn in Hi.
    rewrite (nth_error_replace_nth _ _ _ _ e1 He) in Hi.
    destruct (Nat.eqb_spec j i) as [-> | _]; left.
    + injection Hi as <-. cbn in Hw. now exists e1.
    + now exists e.
  - destruct (nth_error (effects w) j) as [e1 |] eqn:He; [| discriminate].
    destruct (watching e1); [| discriminate].
    injection Hstep as Hrun.
    pose proof (watchCallback_effects fetch (closureRoute e1) newLocation w) as Heff.
    unfold exec in Heff. rewrite Hrun in Heff. cbn in Heff.
    rewrite Heff in Hi. left. now exists e.
  - destruct (selectedRoute w); [| discriminate].
    destruct (nth_error (effects w) (List.length (effects w) - 1)) as [e1 |] eqn:He.
    + unfold cleanup, bind in Hstep. cbn in Hstep.
      destruct (effectStage e1); injection Hstep as _ <-; cbn in Hi;
        try (left; now exists e).
      rewrite (nth_error_replace_nth _ _ _ _ e1 He) in Hi.
      destruct (Nat.eqb_spec (List.length (effects w) - 1) i) as [Heq | _].
      * injection Hi as <-. discriminate Hw.
      * left. now exists e.
    + injection Hstep as _ <-. cbn in Hi. left. now exists e.
Qed.

Lemma watching_was_granted (evs : list event) :
  forall w i e,
    run initialWorld evs = Some w ->
    nth_error (effects w) i = Some e ->
    watching e = true ->
    In (PermissionSettles i "granted") evs.
Proof.
  induction evs as [| ev evs IH] using rev_ind; intros w i e Hrun Hi Hw.
  - cbn in Hrun. injection Hrun as <-. destruct i; discriminate Hi.
  - rewrite run_app in Hrun.
    destruct (run initialWorld evs) as [w0 |] eqn:Hrun0; [| discriminate].
    cbn in Hrun. destruct (step w0 ev) as [[r w1] |] eqn:Hstep; [| discriminate].
    injection Hrun as ->. apply in_or_app.
    destruct (step_watching_origin w0 ev r w i e Hstep Hi Hw)
      as [(e0 & He0 & Hw0) | ->].
    + left. exact (IH w0 i e0 eq_refl He0 Hw0).
    + right. now left.
Qed.

(** No tracking without permission: in any run from the start, a position
    update is handled for an effect instance only if the permission request
    of that instance settled with ['granted'] earlier in the run. *)
Theorem update_only_after_permission_granted
    (evs : list event) (w : World) (i : nat)
    (newLocation : LocationObject) (fetch : Network) :
  run initialWorld evs = Some w ->
  step w (PositionUpdate i newLocation fetch) <> None ->
  In (PermissionSettles i "granted") evs.
Proof.
  intros Hrun Hstep. unfold step in Hstep. cbn in Hstep.
  destruct (nth_error (effects w) i) as [e |] eqn:He; [| contradiction].
  destruct (watching e) eqn:Hw; [| contradiction].
  exact (watching_was_granted evs w i e Hrun He Hw).
Qed.

Lemma update_only_after_permission_granted_witness :
  run initialWorld ride = Some riding /\
  step riding (PositionUpdate 0 (mkLocationObject nearBellRock 0) networkDown) <> None /\
  In (PermissionSettles 0 "granted") ride.
Proof.
  assert (step riding (PositionUpdate 0 (mkLocationObject nearBellRock 0) networkDown)
          <> None) as Hstep by discriminate.
  split; [exact ride_run | split; [exact Hstep |]].
  exact (update_only_after_permission_granted ride riding 0
           (mkLocationObject nearBellRock 0) networkDown ride_run Hstep).
Defined.

(** ** Geo math: the antimeridian *)


(** * The distance in binary64: rounding near the antipode *)

Module Binary64Facts.

Import Floats.
Import Binary64.
Local Open Scope float_scope.








(** ** The recorded answers are the correctly rounded ones

    Each recorded sine and cosine is within half a unit in the last place
    (2^-54) of the exact value at the double it answers. *)

Lemma INR_fact (n : nat) : INR (fact n) = IZR (Zfact n).
Proof.
  induction n as [| n IH].
  - reflexivity.
  - change (fact (S n)) with (S n * fact n)%nat.
    rewrite mult_INR, IH, INR_IZR_INZ, <- mult_IZR. reflexivity.
Qed.

Ltac eval_facts H :=
  repeat match type of H with
         | context [INR (fact ?n)] =>
             let v := eval vm_compute in (Zfact n) in
             replace (INR (fact n)) with (IZR v) in H
               by (rewrite INR_fact; apply f_equal; vm_compute; reflexivity)
         end.

(** The value of [toR] at a literal, as a quotient of integers. *)
Ltac eval_toR :=
  repeat match goal with
         | |- context [toR ?f] =>
             let v := eval vm_compute in (Prim2SF f) in
             let H := fresh in
             assert (Prim2SF f = v) as H by (vm_compute; reflexivity);
             unfold toR at 1; rewrite H; clear H
         end;
  cbn [powerRZ]; 
  repeat match goal with
         | |- context [Pos.to_nat ?p] =>
             let n := eval vm_compute in (Pos.to_nat p) in
             change (Pos.to_nat p) with n
         end;
  cbn [pow].

Ltac taylor_sin x :=
  let Hlo := fresh "Hlo" in
  let Hhi := fresh "Hhi" in
  destruct (sin_bound x 5) as [Hlo Hhi]; [lra | lra |];
  unfold sin_approx, sin_term in Hlo, Hhi;
  cbn [sum_f_R0 Nat.mul Nat.add] in Hlo, Hhi;
  eval_facts Hlo; eval_facts Hhi;
  cbn [pow] in Hlo, Hhi.

Ltac taylor_cos x :=
  let Hlo := fresh "Hlo" in
  let Hhi := fresh "Hhi" in
  destruct (cos_bound x 5) as [Hlo Hhi]; [lra | lra |];
  unfold cos_approx, cos_term in Hlo, Hhi;
  cbn [sum_f_R0 Nat.mul Nat.add] in Hlo, Hhi;
  eval_facts Hlo; eval_facts Hhi;
  cbn [pow] in Hlo, Hhi.

Local Open Scope R_scope.

Lemma recordedSin_zero : sin (toR 0%float) = toR (recordedSin 0%float).
Proof.
  change (recordedSin 0%float) with 0%float.
  unfold toR.
  replace (Prim2SF 0%float) with (S754_zero false) by (vm_compute; reflexivity).
  exact sin_0.
Qed.

Lemma recordedCos_zero : cos (toR 0%float) = toR (recordedCos 0%float).
Proof.
  change (recordedCos 0%float) with 1%float.
  unfold toR.
  replace (Prim2SF 0%float) with (S754_zero false) by (vm_compute; reflexivity).
  replace (Prim2SF 1%float) with (S754_finite false 4503599627370496 (-52))
    by (vm_compute; reflexivity).
  cbn [powerRZ]. change (Pos.to_nat 52) with 52%nat. cbn [pow].
  rewrite cos_0. lra.
Qed.

Lemma recordedSin_half_latitude :
  Rabs (sin (toR 0x1.37011f3658f99p-1%float) -
        toR (recordedSin 0x1.37011f3658f99p-1%float)) <= / 18014398509481984.
Proof.
  let v := eval vm_compute in (recordedSin 0x1.37011f3658f99p-1%float) in
  change (recordedSin 0x1.37011f3658f99p-1%float) with v.
  eval_toR. pose proof PI2_1 as Hpi.
  match goal with |- Rabs (sin ?x - _) <= _ => taylor_sin x end.
  apply Rabs_le. split; lra.
Qed.

Lemma recordedSin_half_longitude :
  Rabs (sin (toR (-0x1.921fb54442d18p+0)%float) -
        toR (recordedSin (-0x1.921fb54442d18p+0)%float)) <= / 18014398509481984.
Proof.
  let v := eval vm_compute in (recordedSin (-0x1.921fb54442d18p+0)%float) in
  change (recordedSin (-0x1.921fb54442d18p+0)%float) with v.
  eval_toR. pose proof PI2_3_2 as Hpi.
  match goal with
  | |- Rabs (sin (-1 * ?m * ?d) - _) <= _ =>
      replace (-1 * m * d) with (- (m * d)) by ring;
      rewrite sin_neg;
      pose proof (SIN_bound (m * d)) as Hone;
      taylor_sin (m * d)
  end.
  apply Rabs_le. split; lra.
Qed.

Lemma recordedCos_position :
  Rabs (cos (toR (-0x1.37011f5bd4061p-1)%float) -
        toR (recordedCos (-0x1.37011f5bd4061p-1)%float)) <= / 18014398509481984.
Proof.
  let v := eval vm_compute in (recordedCos (-0x1.37011f5bd4061p-1)%float) in
  change (recordedCos (-0x1.37011f5bd4061p-1)%float) with v.
  eval_toR. pose proof PI2_1 as Hpi.
  match goal with |- Rabs (cos ?x - _) <= _ => taylor_cos x end.
  apply Rabs_le. split; lra.
Qed.

Lemma recordedCos_destination :
  Rabs (cos (toR 0x1.37011f10ddecfp-1%float) -
        toR (recordedCos 0x1.37011f10ddecfp-1%float)) <= / 18014398509481984.
Proof.
  let v := eval vm_compute in (recordedCos 0x1.37011f10ddecfp-1%float) in
  change (recordedCos 0x1.37011f10ddecfp-1%float) with v.
  eval_toR. pose proof PI2_1 as Hpi.
  match goal with |- Rabs (cos ?x - _) <= _ => taylor_cos x end.
  apply Rabs_le. split; lra.
Qed.


(** ** Near the antipode *)

Local Open Scope float_scope.




(** ** Two positions too close to tell apart *)

(** The distance is exactly 0 between two distinct positions: north of the
    crossing of the equator and the prime meridian by the least positive
    double, the difference of the latitudes times [Math.PI] divided by 180
    rounds to 0, so every term of [a] is 0.  It holds on every engine that
    answers [sin 0 = 0], [cos 0 = 1] and [atan2 0 1 = 0], as ECMA-262
    requires; and the arrival test succeeds there. *)
Theorem zero_distance_between_distinct_positions (M : Engine) :
  Math_sin M 0 = 0 -> Math_cos M 0 = 1 -> Math_atan2 M 0 1 = 0 ->
  (latitude oneStepNorth =? latitude equatorOrigin) = false /\
  calculateDistance M equatorOrigin oneStepNorth = 0 /\
  arrived (calculateDistance M equatorOrigin oneStepNorth) = true.
Proof.
  intros Hsin Hcos Hatan2.
  assert (calculateDistance M equatorOrigin oneStepNorth = 0) as Hzero.
  { unfold calculateDistance, haversine_a. cbv zeta.
    change ((latitude oneStepNorth - latitude equatorOrigin) * Math_PI / 180 / 2)
      with 0.
    change ((longitude oneStepNorth - longitude equatorOrigin) * Math_PI / 180 / 2)
      with 0.
    change (latitude equatorOrigin * Math_PI / 180) with 0.
    change (latitude oneStepNorth * Math_PI / 180) with 0.
    rewrite Hsin, Hcos.
    change (sqrt (0 * 0 + 1 * 1 * 0 * 0)) with 0.
    change (sqrt (1 - (0 * 0 + 1 * 1 * 0 * 0))) with 1.
    rewrite Hatan2. vm_compute. reflexivity. }
  split; [vm_compute; reflexivity | split; [exact Hzero |]].
  rewrite Hzero. vm_compute. reflexivity.
Qed.

Lemma zero_distance_between_distinct_positions_witness :
  (latitude oneStepNorth =? latitude equatorOrigin) = false /\
  calculateDistance recordedEngine equatorOrigin oneStepNorth = 0 /\
  arrived (calculateDistance recordedEngine equatorOrigin oneStepNorth) = true.
Proof.
  apply (zero_distance_between_distinct_positions recordedEngine);
    vm_compute; reflexivity.
Defined.

End Binary64Facts.
